(** * lrlock: a left-right mutex and its distributed reference counter

    A shallow embedding of the Go package [lrlock] (files [refcounter.go],
    the power-of-two helper, the platform hooks and [lrlock.go]) together
    with the properties its specification states about it.

    Modelling conventions.
    - Go's [int] is taken to be 64 bits wide, [int32], [int16] and [byte]
      are as in the language; every arithmetic operation that can wrap is
      written with its wrap-around.
    - Slices and channels are references.  The model keeps them in a
      [world]: a store of counter arrays, a store of channel buffers, a
      store of [LRMutex] objects, and the process-wide [refCountPool].  A
      [refCount] value holds the *address* of its counters array, so two
      instances can share one array exactly as in the source.
    - Every atomic memory operation and every channel operation is
      appended to a log kept in the world, so that statements about
      which slots a method touches, or whether it signals, can be made
      about the method itself.
    - A goroutine that blocks (on a channel or on the writer gate) gives
      the result [Park], which carries the rest of the computation: it is
      resumed in the world that the other goroutines have produced by the
      time the blocking operation completes. *)

From Stdlib Require Import ZArith Lia String List Bool.
From stdpp Require Import base tactics option list list_numbers.

Local Open Scope Z_scope.

(** ** Machine integers *)

Module Int.

(** Two's complement wrap-around of a mathematical integer to [n] bits. *)
Definition wrap (n : Z) (z : Z) : Z := (z + 2 ^ (n - 1)) mod 2 ^ n - 2 ^ (n - 1).

Definition int64 (z : Z) : Z := wrap 64 z.
Definition int32 (z : Z) : Z := wrap 32 z.
Definition int16 (z : Z) : Z := wrap 16 z.
Definition byte (z : Z) : Z := z mod 256.
Definition uint (z : Z) : Z := z mod 2 ^ 64.

Definition MaxInt32 : Z := 2147483647.

(** [x << n] on [int], [n] an unsigned shift count: counts of 64 and more
    give 0. *)
Definition shl (x n : Z) : Z := if 64 <=? n then 0 else int64 (Z.shiftl x n).

(** Go's [%] truncates towards zero. *)
Definition rem (x y : Z) : Z := Z.rem x y.

Definition is_int32 (z : Z) : Prop := - 2 ^ 31 <= z < 2 ^ 31.

End Int.
Import Int.

(** ** Platform hooks

    [gomaxprocs], [getp] and [slotsPerCacheLineBits] are placeholders in
    the source (each body is a constant under a TODO).  The model is
    stated over any values of the three hooks; [stub] is the source's. *)

Class Platform := {
  gomaxprocs : Z;
  getp : Z;
  slotsPerCacheLineBits : Z
}.

Definition stub : Platform :=
  {| gomaxprocs := 4; getp := 0; slotsPerCacheLineBits := 4 |}.

(** ** Data *)

(** [counters] is the address of the (possibly shared) counters array,
    [waitch] that of the channel, [None] for a nil channel. *)
Record refCount := {
  pbits : Z;
  counters : nat;
  offset : Z;
  waitch : option nat
}.

(** [refCounts] is the two-element array of pointers; [None] is nil. *)
Record LRMutex := {
  once : bool;
  state : Z;
  wmu : bool;
  refCounts : option refCount * option refCount
}.

Definition zeroLRMutex : LRMutex :=
  {| once := false; state := 0; wmu := false; refCounts := (None, None) |}.

Record LockToken := {
  nonzero : bool;
  startIdx : Z;
  incrs : Z;
  l : option nat
}.

Definition zeroLockToken : LockToken :=
  {| nonzero := false; startIdx := 0; incrs := 0; l := None |}.

Record RLockToken := {
  idx : Z;
  tok : Z;
  rc : option refCount
}.

Definition zeroRLockToken : RLockToken := {| idx := 0; tok := 0; rc := None |}.

(** ** The world *)

Inductive event :=
| EvAdd (a : nat) (i : Z) (delta : Z)   (* atomic.AddInt32(&counters[i], delta) *)
| EvStore (a : nat) (i : Z) (v : Z)     (* atomic.StoreInt32(&counters[i], v) *)
| EvSend (c : nat)                      (* waitch <- struct{}{} *)
| EvRecv (c : nat).                     (* <-waitch *)

Record world := {
  arrays : list (list Z);
  chans : list Z;
  mutexes : list LRMutex;
  pool : list refCount;
  trace : list event
}.

Definition emptyWorld : world :=
  {| arrays := []; chans := []; mutexes := []; pool := []; trace := [] |}.

Definition with_arrays (f : list (list Z) -> list (list Z)) (w : world) : world :=
  {| arrays := f (arrays w); chans := chans w; mutexes := mutexes w;
     pool := pool w; trace := trace w |}.

Definition with_chans (f : list Z -> list Z) (w : world) : world :=
  {| arrays := arrays w; chans := f (chans w); mutexes := mutexes w;
     pool := pool w; trace := trace w |}.

Definition with_mutexes (f : list LRMutex -> list LRMutex) (w : world) : world :=
  {| arrays := arrays w; chans := chans w; mutexes := f (mutexes w);
     pool := pool w; trace := trace w |}.

Definition with_pool (f : list refCount -> list refCount) (w : world) : world :=
  {| arrays := arrays w; chans := chans w; mutexes := mutexes w;
     pool := f (pool w); trace := trace w |}.

Definition log (e : event) (w : world) : world :=
  {| arrays := arrays w; chans := chans w; mutexes := mutexes w;
     pool := pool w; trace := trace w ++ [e] |}.

(** The slot [i] of the array at address [a]; [None] when a Go index
    expression would be out of range. *)
Definition slot (w : world) (a : nat) (i : Z) : option Z :=
  if i <? 0 then None
  else match arrays w !! a with
       | Some cs => cs !! Z.to_nat i
       | None => None
       end.

Definition set_slot (a : nat) (i : Z) (v : Z) (w : world) : world :=
  with_arrays (alter (fun cs => <[Z.to_nat i := v]> cs) a) w.

(** ** Results of a call *)

Inductive blocker :=
| OnRecv (c : nat)
| OnSend (c : nat)
| OnMutex (l : nat).

Inductive res (A : Type) : Type :=
| Ret (a : A) (w : world)                         (* the call returns *)
| Panic (msg : string) (w : world)                (* the call panics *)
| Hang (w : world)                                (* blocked forever: nil channel *)
| Park (b : blocker) (w : world) (k : world -> res A).
                                                  (* blocked; [k] is the rest *)
Arguments Ret {A} a w.
Arguments Panic {A} msg w.
Arguments Hang {A} w.
Arguments Park {A} b w k.

Definition M (A : Type) : Type := world -> res A.

Definition ret {A} (a : A) : M A := fun w => Ret a w.
Definition panic {A} (msg : string) : M A := fun w => Panic msg w.

Fixpoint bind_res {A B} (r : res A) (f : A -> M B) : res B :=
  match r with
  | Ret a w => f a w
  | Panic msg w => Panic msg w
  | Hang w => Hang w
  | Park b w k => Park b w (fun w' => bind_res (k w') f)
  end.

Definition bind {A B} (m : M A) (f : A -> M B) : M B :=
  fun w => bind_res (m w) f.

Declare Scope go_scope.
Delimit Scope go_scope with go.
Notation "x <- m ;; k" := (bind m (fun x => k))
  (at level 100, m at next level, right associativity) : go_scope.
Notation "m ;;; k" := (bind m (fun _ => k))
  (at level 100, right associativity) : go_scope.
Local Open Scope go_scope.

Definition nilDeref : string := "invalid memory address or nil pointer dereference".
Definition indexOutOfRange : string := "index out of range".

(** ** Primitives of the runtime *)

Definition atomic_AddInt32 (a : nat) (i : Z) (delta : Z) : M Z := fun w =>
  match slot w a i with
  | None => Panic indexOutOfRange w
  | Some v => let v' := int32 (v + delta) in
              Ret v' (log (EvAdd a i delta) (set_slot a i v' w))
  end.

Definition atomic_StoreInt32 (a : nat) (i : Z) (v : Z) : M unit := fun w =>
  match slot w a i with
  | None => Panic indexOutOfRange w
  | Some _ => Ret tt (log (EvStore a i v) (set_slot a i v w))
  end.

(** [make([]int32, n)]: a fresh array of zeros; a negative length panics. *)
Definition make_counters (n : Z) : M nat := fun w =>
  if n <? 0 then Panic "makeslice: len out of range" w
  else Ret (length (arrays w))
           (with_arrays (fun l => l ++ [replicate (Z.to_nat n) 0]) w).

(** [make(chan struct{}, 1)]: a fresh channel with an empty buffer. *)
Definition make_chan : M nat := fun w =>
  Ret (length (chans w)) (with_chans (fun l => l ++ [0]) w).

(** Send on a channel of capacity 1. *)
Definition chan_send (c : option nat) : M unit := fun w =>
  match c with
  | None => Hang w
  | Some c =>
      match chans w !! c with
      | None => Hang w
      | Some n =>
          if n <? 1 then Ret tt (log (EvSend c) (with_chans (<[c := n + 1]>) w))
          else Park (OnSend c) (log (EvSend c) w) (fun w' => Ret tt w')
      end
  end.

(** Receive: takes the buffered element, or parks until a sender hands
    one over. *)
Definition chan_recv (c : option nat) : M unit := fun w =>
  match c with
  | None => Hang w
  | Some c =>
      match chans w !! c with
      | None => Hang w
      | Some n =>
          if 0 <? n then Ret tt (log (EvRecv c) (with_chans (<[c := n - 1]>) w))
          else Park (OnRecv c) (log (EvRecv c) w) (fun w' => Ret tt w')
      end
  end.

(** [refCountPool.Get()] and [Put]: the pool hands back the entry put
    last, or nil when it is empty. *)
Definition pool_Get : M (option refCount) := fun w =>
  match pool w with
  | [] => Ret None w
  | r :: rest => Ret (Some r) (with_pool (fun _ => rest) w)
  end.

Definition pool_Put (r : refCount) : M unit := fun w =>
  Ret tt (with_pool (fun p => r :: p) w).

(** ** The power-of-two helper *)

Definition roundNearestPowerOf2 (v : Z) : Z :=
  let v := int64 (v - 1) in
  let v := Z.lor v (Z.shiftr v 1) in
  let v := Z.lor v (Z.shiftr v 2) in
  let v := Z.lor v (Z.shiftr v 4) in
  let v := Z.lor v (Z.shiftr v 8) in
  let v := Z.lor v (Z.shiftr v 16) in
  int64 (v + 1).

(** ** refCount *)

Definition set_offset (o : Z) (r : refCount) : refCount :=
  {| pbits := pbits r; counters := counters r; offset := o; waitch := waitch r |}.

Definition set_waitch (c : option nat) (r : refCount) : refCount :=
  {| pbits := pbits r; counters := counters r; offset := offset r; waitch := c |}.

Section RefCount.

Context {P : Platform}.

Definition maxPid (r : refCount) : Z := int64 (shl 1 (pbits r) - 1).

Definition idxForP (r : refCount) (p : Z) : Z :=
  let pid := Z.land p (maxPid r) in
  int64 (shl pid slotsPerCacheLineBits + offset r).

Definition acquire (r : refCount) : M Z :=
  let idx := idxForP r (int64 (getp + 1)) in
  v <- atomic_AddInt32 (counters r) idx 1 ;;
  if v =? MaxInt32
  then panic "refCount does not support more than 2 billion acquires."
  else ret idx.

Definition release (r : refCount) (idx : Z) : M unit :=
  v <- atomic_AddInt32 (counters r) idx (-1) ;;
  if v >=? 0 then ret tt
  else
    a <- atomic_AddInt32 (counters r) (idxForP r 0) (-1) ;;
    if negb (a =? 0) then ret tt
    else chan_send (waitch r).

(** The loop [for i := 1; i <= r.maxPid(); i++] of [wait]: [n] is the
    number of iterations left.  [r.pbits] does not change, so the loop
    runs [maxPid r] times (none when that is negative). *)
Fixpoint wait_loop (r : refCount) (n : nat) (i : Z) (pendingSlots : Z) : M Z :=
  match n with
  | O => ret pendingSlots
  | S n' =>
      v <- atomic_AddInt32 (counters r) (idxForP r i) (-1) ;;
      wait_loop r n' (int64 (i + 1))
        (if v >=? 0 then int32 (pendingSlots + 1) else pendingSlots)
  end.

Definition wait (r : refCount) : M unit :=
  pendingSlots <- wait_loop r (Z.to_nat (maxPid r)) 1 0 ;;
  if pendingSlots >? 0 then
    a <- atomic_AddInt32 (counters r) (idxForP r 0) pendingSlots ;;
    if a >? 0 then chan_recv (waitch r) else ret tt
  else ret tt.

Fixpoint clear_loop (r : refCount) (n : nat) (i : Z) : M unit :=
  match n with
  | O => ret tt
  | S n' =>
      atomic_StoreInt32 (counters r) (idxForP r i) 0 ;;;
      clear_loop r n' (int64 (i + 1))
  end.

Definition clear (r : refCount) : M unit :=
  atomic_StoreInt32 (counters r) (idxForP r 0) 0 ;;;
  clear_loop r (Z.to_nat (maxPid r)) 1.

Definition allocateRefCount (reuse : option refCount) : M refCount :=
  let pb := uint (roundNearestPowerOf2 (int64 (gomaxprocs + 1))) in
  let fresh : M refCount :=
    a <- make_counters (shl (shl 1 pb) slotsPerCacheLineBits) ;;
    let newRc := {| pbits := pb; counters := a; offset := 0; waitch := None |} in
    (* Push the remaining slots into the pool *)
    pool_Put (set_offset (int64 (offset newRc + 1)) newRc) ;;;
    c <- make_chan ;;
    ret (set_waitch (Some c) newRc) in
  let from_pool : M refCount :=
    pooledRc <- pool_Get ;;
    match pooledRc with
    | Some pr =>
        if pbits pr =? pb then
          (if offset pr <? int64 (shl 1 slotsPerCacheLineBits - 1)
           then pool_Put (set_offset (int64 (offset pr + 1)) pr)
           else ret tt) ;;;
          c <- make_chan ;;
          ret (set_waitch (Some c) pr)
        else fresh
    | None => fresh
    end in
  match reuse with
  | Some r0 => if pbits r0 =? pb then clear r0 ;;; ret r0 else from_pool
  | None => from_pool
  end.

End RefCount.

(** ** LRMutex and its tokens *)

Definition set_once (b : bool) (m : LRMutex) : LRMutex :=
  {| once := b; state := state m; wmu := wmu m; refCounts := refCounts m |}.

Definition set_state (s : Z) (m : LRMutex) : LRMutex :=
  {| once := once m; state := s; wmu := wmu m; refCounts := refCounts m |}.

Definition set_wmu (b : bool) (m : LRMutex) : LRMutex :=
  {| once := once m; state := state m; wmu := b; refCounts := refCounts m |}.

(** [refCounts[i]]; every index expression of the source is 0 or 1. *)
Definition refCounts_at (m : LRMutex) (i : Z) : option refCount :=
  if i =? 0 then fst (refCounts m) else snd (refCounts m).

Definition set_refCounts_at (i : Z) (r : option refCount) (m : LRMutex) : LRMutex :=
  {| once := once m; state := state m; wmu := wmu m;
     refCounts := if i =? 0 then (r, snd (refCounts m)) else (fst (refCounts m), r) |}.

Definition load_mutex (lk : nat) : M LRMutex := fun w =>
  match mutexes w !! lk with
  | Some m => Ret m w
  | None => Panic nilDeref w
  end.

Definition update_mutex (lk : nat) (f : LRMutex -> LRMutex) : M unit := fun w =>
  match mutexes w !! lk with
  | Some m => Ret tt (with_mutexes (<[lk := f m]>) w)
  | None => Panic nilDeref w
  end.

(** [atomic.LoadInt32(&l.state)] and [atomic.StoreInt32(&l.state, v)]. *)
Definition atomic_LoadState (lk : nat) : M Z :=
  m <- load_mutex lk ;; ret (state m).

Definition atomic_StoreState (lk : nat) (v : Z) : M unit :=
  update_mutex lk (set_state v).

(** [l.wmu.Lock()]: parks while another writer holds the gate and takes
    it when woken. *)
Definition wmu_Lock (lk : nat) : M unit := fun w =>
  match mutexes w !! lk with
  | None => Panic nilDeref w
  | Some m =>
      if wmu m then Park (OnMutex lk) w (update_mutex lk (set_wmu true))
      else Ret tt (with_mutexes (<[lk := set_wmu true m]>) w)
  end.

Definition wmu_Unlock (lk : nat) : M unit := fun w =>
  match mutexes w !! lk with
  | None => Panic nilDeref w
  | Some m =>
      if wmu m then Ret tt (with_mutexes (<[lk := set_wmu false m]>) w)
      else Panic "sync: unlock of unlocked mutex" w
  end.

Definition incr (t : LockToken) : LockToken :=
  {| nonzero := nonzero t; startIdx := startIdx t;
     incrs := byte (incrs t + 1); l := l t |}.

Section Mutex.

Context {P : Platform}.

Definition init (lk : nat) : M unit :=
  update_mutex lk (set_state 0) ;;;
  r0 <- allocateRefCount None ;;
  update_mutex lk (set_refCounts_at 0 (Some r0)) ;;;
  r1 <- allocateRefCount None ;;
  update_mutex lk (set_refCounts_at 1 (Some r1)).

(** [l.once.Do(f)] *)
Definition once_Do (lk : nat) (f : M unit) : M unit :=
  m <- load_mutex lk ;;
  if once m then ret tt
  else f ;;; update_mutex lk (set_once true).

Definition Lock (lk : nat) : M LockToken :=
  once_Do lk (init lk) ;;;
  wmu_Lock lk ;;;
  st <- atomic_LoadState lk ;;
  let leftRight := Z.shiftr st 1 in
  ret {| nonzero := true;
         startIdx := byte (rem (int32 (leftRight + 1)) 2);
         incrs := 0;
         l := Some lk |}.

Definition waitForNonVersionIndex (lk : nat) (st : Z) : M unit :=
  let i := rem (int32 (Z.land st 1 + 1)) 2 in
  m <- load_mutex lk ;;
  match refCounts_at m i with
  | None => panic nilDeref
  | Some r =>
      wait r ;;;
      (* Resize the refCount, now that no one is looking at it. *)
      m' <- load_mutex lk ;;
      r' <- allocateRefCount (refCounts_at m' i) ;;
      update_mutex lk (set_refCounts_at i (Some r'))
  end.

(** [Next] has a pointer receiver: the token it returns is the
    caller's token after the call. *)
Definition Next (t : LockToken) : M (bool * LockToken) :=
  if negb (nonzero t) then panic "Use of a zero LockToken is invalid."
  else if incrs t >=? 3
  then panic "Cannot call Next() again after it has returned false."
  else if incrs t =? 0 then ret (true, incr t)
  else
    match l t with
    | None => panic nilDeref
    | Some lk =>
        if incrs t =? 2 then
          wmu_Unlock lk ;;; ret (false, incr t)
        else
          st <- atomic_LoadState lk ;;
          (* Toggle leftRight. *)
          let newLeftRight := rem (int32 (Z.shiftr st 1 + 1)) 2 in
          let newState := Z.lor (int32 (Z.shiftl newLeftRight 1)) (Z.land st 1) in
          atomic_StoreState lk newState ;;;
          let st := newState in
          (* Wait for the counter that doesn't match versionIndex. *)
          waitForNonVersionIndex lk st ;;;
          (* Toggle versionIndex *)
          let newVersionIndex := rem (int32 (Z.land st 1 + 1)) 2 in
          let newState := Z.lor (Z.land st 2) newVersionIndex in
          atomic_StoreState lk newState ;;;
          let st := newState in
          waitForNonVersionIndex lk st ;;;
          let t' := incr t in
          ret (incrs t' <? 3, t')
    end.

Definition LockToken_Idx (t : LockToken) : M Z :=
  if negb (nonzero t) then panic "Use of a zero LockToken is invalid."
  else if incrs t =? 0 then panic "Cannot call Idx() before calling Next()."
  else if incrs t >? 2
  then panic "Cannot call Idx() again after Next() has returned false."
  else ret (rem (byte (byte (startIdx t + incrs t) - 1)) 2).

Definition RLock (lk : nat) : M RLockToken :=
  once_Do lk (init lk) ;;;
  state0 <- atomic_LoadState lk ;;
  m <- load_mutex lk ;;
  match refCounts_at m (Z.land state0 1) with
  | None => panic nilDeref
  | Some r =>
      tok <- acquire r ;;
      if negb (int16 tok =? tok)
      then panic "internal state error: refCount returned a token larger than 2^16."
      else
        state1 <- atomic_LoadState lk ;;
        let readIdx := Z.land (Z.shiftr state1 1) 1 in
        ret {| idx := byte readIdx; tok := int16 tok; rc := Some r |}
  end.

Definition RLockToken_Idx (r : RLockToken) : M Z :=
  match rc r with
  | None => panic "Use of a zero RLockToken is invalid."
  | Some _ =>
      if tok r =? -1 then panic "Use of a RLockToken after RUnlock is invalid."
      else ret (idx r)
  end.

(** [RUnlock] has a value receiver: the assignment [r.tok = -1] at its
    end is made to the method's own copy of the token, and the caller's
    token is what it was. *)
Definition RUnlock (r : RLockToken) : M unit :=
  match rc r with
  | None => panic "Use of a zero RLockToken is invalid."
  | Some c =>
      if tok r =? -1 then panic "Use of a RLockToken after RUnlock is invalid."
      else
        release c (tok r) ;;;
        let r := {| idx := idx r; tok := -1; rc := rc r |} in
        ret tt
  end.

End Mutex.

(** A world holding one zero-value [LRMutex], at address 0, and nothing
    else: the state of a program that has declared a mutex and not yet
    used it. *)
Definition freshWorld : world :=
  {| arrays := []; chans := []; mutexes := [zeroLRMutex]; pool := []; trace := [] |}.

(** ** Sample inputs, at which the statements below are instantiated *)

(** Two refCounts sharing the array at address 0 (four shards of sixteen
    slots), at offsets 1 and 2. *)
Definition sampleRc : refCount :=
  {| pbits := 2; counters := 0; offset := 1; waitch := Some 0%nat |}.

Definition sampleRc2 : refCount :=
  {| pbits := 2; counters := 0; offset := 2; waitch := Some 1%nat |}.

(** [sampleRc] with two readers registered on shard 1 (slot 17). *)
Definition sampleWorld : world :=
  {| arrays := [<[17%nat := 2]> (replicate 64 0)]; chans := [0; 0];
     mutexes := []; pool := []; trace := [] |}.

(** Shard 1 of [sampleRc] one acquire below the top of [int32]. *)
Definition fullWorld : world :=
  {| arrays := [<[17%nat := 2147483646]> (replicate 64 0)]; chans := [0; 0];
     mutexes := []; pool := []; trace := [] |}.

(** A platform with many processors, and an initialised mutex on it whose
    refCounts have 4096 shards. *)
Definition widePlatform : Platform :=
  {| gomaxprocs := 4000; getp := 2100; slotsPerCacheLineBits := 4 |}.

Definition wideRc : refCount :=
  {| pbits := 12; counters := 0; offset := 0; waitch := Some 0%nat |}.

Definition wideWorld : world :=
  {| arrays := [replicate (Z.to_nat 65536) 0]; chans := [0];
     mutexes := [{| once := true; state := 0; wmu := false;
                    refCounts := (Some wideRc, Some wideRc) |}];
     pool := []; trace := [] |}.

(** The world a first Lock() or RLock() on [freshWorld] initialises, on
    the source's platform: the two refCounts of the mutex share one array
    of 4096 slots at offsets 0 and 1, and offset 2 waits in the pool. *)
Definition readyRc0 : refCount :=
  {| pbits := 8; counters := 0; offset := 0; waitch := Some 0%nat |}.

Definition readyRc1 : refCount :=
  {| pbits := 8; counters := 0; offset := 1; waitch := Some 1%nat |}.

Definition readyMutex : LRMutex :=
  {| once := true; state := 0; wmu := false;
     refCounts := (Some readyRc0, Some readyRc1) |}.

Definition readyWorld : world :=
  {| arrays := [replicate (Z.to_nat 4096) 0]; chans := [0; 0];
     mutexes := [readyMutex];
     pool := [{| pbits := 8; counters := 0; offset := 2; waitch := None |}];
     trace := [] |}.

(** A platform reporting 64 processors. *)
Definition manyPlatform : Platform :=
  {| gomaxprocs := 64; getp := 0; slotsPerCacheLineBits := 4 |}.

(** ** Vocabulary of the statements *)

(** The world in which a call ends: where it returns, panics or blocks. *)
Definition world_of {A} (r : res A) : world :=
  match r with
  | Ret _ w | Panic _ w | Hang w | Park _ w _ => w
  end.

(** The atomic and channel operations a call started in [w] has made by
    the time it returns, panics or blocks. *)
Definition events_of {A} (w : world) (r : res A) : list event :=
  drop (length (trace w)) (trace (world_of r)).

(** [returns R Q r]: the call neither panics nor hangs; each time it is
    parked and then resumed in a world satisfying [R] it goes on; and when
    it returns, [Q] holds of its value and of the world. *)
Inductive returns {A} (R : world -> Prop) (Q : A -> world -> Prop) : res A -> Prop :=
| returns_now a w : Q a w -> returns R Q (Ret a w)
| returns_later b w k :
    (forall w', R w' -> returns R Q (k w')) -> returns R Q (Park b w k).

(** [may_return r a w]: some run of the call, resumed in whatever worlds,
    returns [a] in world [w]. *)
Inductive may_return {A} : res A -> A -> world -> Prop :=
| may_return_now a w : may_return (Ret a w) a w
| may_return_later b w0 k w' a w :
    may_return (k w') a w -> may_return (Park b w0 k) a w.

(** Length of the array at address [a]. *)
Definition alen (w : world) (a : nat) : option nat := length <$> arrays w !! a.

(** Two worlds with the same objects: the same mutexes and pool, arrays
    of the same lengths, the same channels. *)
Definition same_shape (w w' : world) : Prop :=
  mutexes w' = mutexes w /\ pool w' = pool w /\
  (forall a, alen w' a = alen w a) /\ length (chans w') = length (chans w).

(** [w'] has every array and channel of [w], of the same size. *)
Definition extends (w w' : world) : Prop :=
  (forall a n, alen w a = Some n -> alen w' a = Some n) /\
  (length (chans w) <= length (chans w'))%nat.

(** An event that is an access to a slot accesses a slot in [S] of array [a]. *)
Definition event_within (a : nat) (S : Z -> Prop) (e : event) : Prop :=
  match e with
  | EvAdd a' i _ | EvStore a' i _ => a' = a /\ S i
  | EvSend _ | EvRecv _ => True
  end.

(** From [w] to [w'] only slots in [S] of array [a] were read or written. *)
Definition touches_only (a : nat) (S : Z -> Prop) (w w' : world) : Prop :=
  same_shape w w' /\
  (forall a' k, ~ (a' = a /\ S k) -> slot w' a' k = slot w a' k) /\
  exists evs, trace w' = trace w ++ evs /\ Forall (event_within a S) evs.

(** A call started in [w] that stays within [S] of [a], also after each
    time it is resumed. *)
Inductive confined {A} (a : nat) (S : Z -> Prop) : world -> res A -> Prop :=
| cf_ret w x w' : touches_only a S w w' -> confined a S w (Ret x w')
| cf_panic w msg w' : touches_only a S w w' -> confined a S w (Panic msg w')
| cf_hang w w' : touches_only a S w w' -> confined a S w (Hang w')
| cf_park w b w' k :
    touches_only a S w w' ->
    (forall w'', confined a S w'' (k w'')) ->
    confined a S w (Park b w' k).

(** The operations of a refCount, as one type. *)
Inductive rc_op :=
| OpAcquire
| OpRelease (p : Z)      (* release of the handle of shard [p] *)
| OpWait
| OpClear.

Section Vocabulary.

Context {P : Platform}.

(** The shard bit width [allocateRefCount] computes. *)
Definition platform_pbits : Z :=
  uint (roundNearestPowerOf2 (int64 (gomaxprocs + 1))).

Definition platform_ok : Prop :=
  1 <= slotsPerCacheLineBits <= 31 /\ 0 <= platform_pbits <= 31.

(** A refCount whose index arithmetic stays within [int]. *)
Definition rc_ok (r : refCount) : Prop :=
  0 <= slotsPerCacheLineBits <= 31 /\ 0 <= pbits r <= 31 /\
  0 <= offset r < 2 ^ slotsPerCacheLineBits.

(** Its counters array is allocated and has room for every shard. *)
Definition arr_ok (w : world) (r : refCount) : Prop :=
  exists n, alen w (counters r) = Some n /\
            2 ^ pbits r * 2 ^ slotsPerCacheLineBits <= Z.of_nat n.

(** The slots of the array that [r] can name. *)
Definition own_slot (r : refCount) (i : Z) : Prop := exists p, i = idxForP r p.

Definition run_op (r : refCount) (o : rc_op) : M unit :=
  match o with
  | OpAcquire => acquire r ;;; ret tt
  | OpRelease p => release r (idxForP r p)
  | OpWait => wait r
  | OpClear => clear r
  end.

(** The value of shard [p] of [r] (0 when the slot does not exist). *)
Definition shard_val (w : world) (r : refCount) (p : Z) : Z :=
  default 0 (slot w (counters r) (idxForP r p)).

(** Shards 1 .. maxPid, in the order [wait] scans them. *)
Definition shards (r : refCount) : list Z := seqZ 1 (maxPid r).

(** A shard is armed when its decremented value is not negative. *)
Definition armed (w : world) (r : refCount) (p : Z) : bool :=
  0 <=? int32 (shard_val w r p - 1).

Definition armed_count (w : world) (r : refCount) : Z :=
  Z.of_nat (length (List.filter (armed w r) (shards r))).

(** A refCount in use by a mutex. *)
Definition live_rc (w : world) (r : refCount) : Prop :=
  rc_ok r /\ arr_ok w r /\ pbits r = platform_pbits /\
  exists c, waitch r = Some c /\ is_Some (chans w !! c).

Definition pool_ok (w : world) : Prop :=
  Forall (fun r => pbits r = platform_pbits -> rc_ok r /\ arr_ok w r) (pool w).

(** The invariant of the mutex at [lk]: its state word is one of 0..3
    and, once initialised, both its refCounts are live. *)
Definition mutex_ok (w : world) (lk : nat) : Prop :=
  exists m, mutexes w !! lk = Some m /\
    (once m = true ->
       0 <= state m <= 3 /\
       exists r0 r1, refCounts m = (Some r0, Some r1) /\ live_rc w r0 /\ live_rc w r1).

Definition inv (lk : nat) (w : world) : Prop :=
  platform_ok /\ pool_ok w /\ mutex_ok w lk.

(** The invariant once the mutex is initialised. *)
Definition ready (lk : nat) (w : world) : Prop :=
  inv lk w /\ exists m, mutexes w !! lk = Some m /\ once m = true.

(** The invariant while a writer holds the gate. *)
Definition held (lk : nat) (w : world) : Prop :=
  inv lk w /\ exists m, mutexes w !! lk = Some m /\ once m = true /\ wmu m = true.

(** Two refCounts that name different slots. *)
Definition apart (r1 r2 : refCount) : Prop :=
  counters r1 <> counters r2 \/ offset r1 <> offset r2.

(** No reader is registered with [r]: every slot of [r] is 0. *)
Definition quiet (w : world) (r : refCount) : Prop :=
  forall p, slot w (counters r) (idxForP r p) = Some 0.

Definition leftRight (st : Z) : Z := Z.land (Z.shiftr st 1) 1.
Definition versionIndex (st : Z) : Z := Z.land st 1.

End Vocabulary.

(** * Properties *)

(** ** Machine integers *)

Lemma wrap_id n z : 0 < n -> - 2 ^ (n - 1) <= z < 2 ^ (n - 1) -> wrap n z = z.
Proof.
  intros Hn Hz. unfold wrap.
  assert (2 ^ n = 2 * 2 ^ (n - 1)) as ->.
  { rewrite <- Z.pow_succ_r by lia. f_equal. lia. }
  rewrite Z.mod_small; lia.
Qed.

Lemma wrap_range n z : 0 < n -> - 2 ^ (n - 1) <= wrap n z < 2 ^ (n - 1).
Proof.
  intros Hn. unfold wrap.
  assert (2 ^ n = 2 * 2 ^ (n - 1)) as E.
  { rewrite <- Z.pow_succ_r by lia. f_equal. lia. }
  assert (0 < 2 ^ (n - 1)) by (apply Z.pow_pos_nonneg; lia).
  pose proof (Z.mod_pos_bound (z + 2 ^ (n - 1)) (2 ^ n)). lia.
Qed.

Lemma int64_id z : - 2 ^ 63 <= z < 2 ^ 63 -> int64 z = z.
Proof. intros. apply wrap_id; [lia|]. exact H. Qed.

Lemma int32_id z : - 2 ^ 31 <= z < 2 ^ 31 -> int32 z = z.
Proof. intros. apply wrap_id; [lia|]. exact H. Qed.

Lemma int32_range z : is_int32 (int32 z).
Proof. apply (wrap_range 32). lia. Qed.

Lemma int32_inc_dec v : is_int32 v -> int32 (int32 (v + 1) - 1) = v.
Proof.
  unfold is_int32. intros Hv.
  destruct (decide (v = 2 ^ 31 - 1)) as [->|Hne].
  - reflexivity.
  - rewrite (int32_id (v + 1)) by lia.
    replace (v + 1 - 1) with v by lia. apply int32_id. lia.
Qed.

Lemma pow2_bounds n : 0 <= n <= 31 -> 1 <= 2 ^ n <= 2 ^ 31.
Proof.
  intros Hn. split.
  - assert (0 < 2 ^ n) by (apply Z.pow_pos_nonneg; lia). lia.
  - apply Z.pow_le_mono_r; lia.
Qed.

Lemma shl_small x n :
  0 <= n <= 31 -> 0 <= x <= 2 ^ 31 -> shl x n = x * 2 ^ n.
Proof.
  intros Hn Hx. unfold shl.
  destruct (Z.leb_spec 64 n); [lia|].
  rewrite Z.shiftl_mul_pow2 by lia.
  pose proof (pow2_bounds n Hn).
  apply int64_id. nia.
Qed.

(** ** The store *)

Lemma slot_log e w a i : slot (log e w) a i = slot w a i.
Proof. reflexivity. Qed.

Lemma alen_set_slot a i v w a' : alen (set_slot a i v w) a' = alen w a'.
Proof.
  unfold alen, set_slot; simpl.
  destruct (decide (a = a')) as [->|Hne].
  - rewrite list_lookup_alter_eq. destruct (arrays w !! a'); simpl; [|done].
    by rewrite length_insert.
  - by rewrite list_lookup_alter_ne.
Qed.

Lemma slot_is_Some w a i :
  is_Some (slot w a i) <-> exists n, alen w a = Some n /\ 0 <= i < Z.of_nat n.
Proof.
  unfold slot, alen. destruct (Z.ltb_spec i 0) as [Hi|Hi].
  - split; [intros [? ?]; done|]. intros (n & _ & ?). lia.
  - destruct (arrays w !! a) as [cs|]; simpl.
    + rewrite lookup_lt_is_Some. split.
      * intros. exists (length cs). split; [done|lia].
      * intros (n & [= <-] & ?). lia.
    + split; [intros [? ?]; done|]. intros (n & ? & _). done.
Qed.

Lemma slot_nonneg w a i v : slot w a i = Some v -> 0 <= i.
Proof. unfold slot. destruct (Z.ltb_spec i 0); [done|lia]. Qed.

Lemma slot_set_slot_eq a i v w :
  is_Some (slot w a i) -> slot (set_slot a i v w) a i = Some v.
Proof.
  unfold slot, set_slot; simpl. destruct (Z.ltb_spec i 0); [intros [? ?]; done|].
  rewrite list_lookup_alter_eq. destruct (arrays w !! a) as [cs|]; simpl.
  - intros Hs. apply list_lookup_insert_eq. by apply lookup_lt_is_Some.
  - intros [? ?]; done.
Qed.

Lemma slot_set_slot_ne a i v w a' j :
  0 <= i -> ~ (a' = a /\ j = i) -> slot (set_slot a i v w) a' j = slot w a' j.
Proof.
  intros Hi Hne. unfold slot, set_slot; simpl.
  destruct (Z.ltb_spec j 0); [done|].
  destruct (decide (a = a')) as [->|Ha].
  - rewrite list_lookup_alter_eq. destruct (arrays w !! a'); simpl; [|done].
    apply list_lookup_insert_ne. intros E. apply Hne. split; [done|lia].
  - by rewrite list_lookup_alter_ne.
Qed.

Lemma set_slot_set_slot_id a i v v' w :
  slot w a i = Some v -> arrays (set_slot a i v (set_slot a i v' w)) = arrays w.
Proof.
  unfold slot, set_slot; simpl. destruct (Z.ltb_spec i 0); [done|].
  destruct (arrays w !! a) as [cs|] eqn:Ea; [|done]. intros Hv.
  rewrite list_alter_alter_eq. apply list_eq. intros k.
  destruct (decide (a = k)) as [<-|Hk].
  - rewrite list_lookup_alter_eq, Ea. simpl. f_equal.
    rewrite list_insert_insert_eq. by apply list_insert_id.
  - by rewrite list_lookup_alter_ne.
Qed.

Lemma same_shape_refl w : same_shape w w.
Proof. by repeat split. Qed.

Lemma same_shape_trans w1 w2 w3 :
  same_shape w1 w2 -> same_shape w2 w3 -> same_shape w1 w3.
Proof.
  intros (A1 & B1 & C1 & D1) (A2 & B2 & C2 & D2).
  repeat split; try congruence; intros a; by rewrite C2.
Qed.

Lemma same_shape_set_slot a i v w : same_shape w (set_slot a i v w).
Proof. repeat split. intros a'. apply alen_set_slot. Qed.

Lemma same_shape_log e w : same_shape w (log e w).
Proof. by repeat split. Qed.

Lemma same_shape_chans w c (n : Z) :
  same_shape w (with_chans (<[c := n]>) w).
Proof. repeat split. simpl. apply length_insert. Qed.

Lemma touches_only_refl a S w : touches_only a S w w.
Proof.
  split; [apply same_shape_refl|]. split; [done|].
  exists []. split; [by rewrite app_nil_r|constructor].
Qed.

Lemma touches_only_trans a S w1 w2 w3 :
  touches_only a S w1 w2 -> touches_only a S w2 w3 -> touches_only a S w1 w3.
Proof.
  intros (A1 & B1 & e1 & C1 & D1) (A2 & B2 & e2 & C2 & D2).
  split; [by eapply same_shape_trans|]. split.
  - intros a' k Hk. rewrite B2, B1; done.
  - exists (e1 ++ e2). split.
    + by rewrite C2, C1, app_assoc.
    + by apply Forall_app.
Qed.

Lemma touches_only_access a (S : Z -> Prop) i v e w :
  0 <= i -> S i -> event_within a S e ->
  touches_only a S w (log e (set_slot a i v w)).
Proof.
  intros Hi HS He. split.
  - eapply same_shape_trans; [apply same_shape_set_slot|apply same_shape_log].
  - split.
    + intros a' k Hk. rewrite slot_log. apply slot_set_slot_ne; [done|].
      intros [-> ->]. by apply Hk.
    + exists [e]. split; [done|]. by constructor.
Qed.

Lemma touches_only_chan a S e w c (n : Z) :
  event_within a S e ->
  touches_only a S w (log e (with_chans (<[c := n]>) w)).
Proof.
  intros He. split.
  - eapply same_shape_trans; [apply same_shape_chans|apply same_shape_log].
  - split; [done|]. exists [e]. split; [done|]. by constructor.
Qed.

Lemma touches_only_log a S e w :
  event_within a S e -> touches_only a S w (log e w).
Proof.
  intros He. split; [apply same_shape_log|]. split; [done|].
  exists [e]. split; [done|]. by constructor.
Qed.

(** ** The monad *)

Lemma bind_eq {A B} (m : M A) (f : A -> M B) w : bind m f w = bind_res (m w) f.
Proof. reflexivity. Qed.

Lemma atomic_AddInt32_eq a i d w v :
  slot w a i = Some v ->
  atomic_AddInt32 a i d w
  = Ret (int32 (v + d)) (log (EvAdd a i d) (set_slot a i (int32 (v + d)) w)).
Proof. intros H. unfold atomic_AddInt32. by rewrite H. Qed.

Lemma atomic_StoreInt32_eq a i x w :
  is_Some (slot w a i) ->
  atomic_StoreInt32 a i x w = Ret tt (log (EvStore a i x) (set_slot a i x w)).
Proof. intros [v H]. unfold atomic_StoreInt32. by rewrite H. Qed.

Lemma returns_bind {A B} (R : world -> Prop) (Q : A -> world -> Prop)
    (Q' : B -> world -> Prop) (r : res A) (f : A -> M B) :
  returns R Q r ->
  (forall a w, Q a w -> returns R Q' (f a w)) ->
  returns R Q' (bind_res r f).
Proof.
  intros Hr Hf. induction Hr as [a w HQ|b w k _ IH]; simpl.
  - by apply Hf.
  - apply returns_later. intros w' HR. by apply IH.
Qed.

Lemma returns_weaken {A} (R : world -> Prop) (Q Q' : A -> world -> Prop) r :
  returns R Q r -> (forall a w, Q a w -> Q' a w) -> returns R Q' r.
Proof.
  intros Hr HQ. induction Hr as [a w H|b w k _ IH].
  - apply returns_now. by apply HQ.
  - apply returns_later. intros w' HR. by apply IH.
Qed.

Lemma may_return_bind {A B} (r : res A) (f : A -> M B) b w :
  may_return (bind_res r f) b w ->
  exists a w1, may_return r a w1 /\ may_return (f a w1) b w.
Proof.
  induction r as [a w0|msg w0|w0|bl w0 k IH]; simpl; intros H.
  - exists a, w0. split; [constructor|done].
  - inversion H.
  - inversion H.
  - inversion H as [|? ? ? w' ? ? Hk]; subst.
    destruct (IH w' Hk) as (a & w1 & H1 & H2).
    exists a, w1. split; [|done]. by eapply may_return_later.
Qed.

Lemma confined_bind {A B} a S w (r : res A) (f : A -> M B) :
  confined a S w r ->
  (forall x w', confined a S w' (f x w')) ->
  confined a S w (bind_res r f).
Proof.
  intros Hr Hf. induction Hr as [w x w' H|w msg w' H|w w' H|w b w' k H _ IH]; simpl.
  - specialize (Hf x w'). inversion Hf; subst; constructor;
      try (eapply touches_only_trans; eassumption); done.
  - by constructor.
  - by constructor.
  - constructor; [done|]. intros w''. apply IH.
Qed.

(** ** Index arithmetic of a refCount *)

Section Index.

Context {P : Platform}.

Lemma maxPid_ok r : rc_ok r -> maxPid r = 2 ^ pbits r - 1.
Proof.
  intros (Hb & Hp & Ho). unfold maxPid.
  rewrite shl_small by lia. pose proof (pow2_bounds _ Hp).
  rewrite Z.mul_1_l. apply int64_id. lia.
Qed.

Lemma idxForP_ok r p :
  rc_ok r ->
  idxForP r p = (p mod 2 ^ pbits r) * 2 ^ slotsPerCacheLineBits + offset r.
Proof.
  intros Hr. pose proof Hr as (Hb & Hp & Ho). unfold idxForP.
  rewrite (maxPid_ok r Hr).
  replace (2 ^ pbits r - 1) with (Z.ones (pbits r))
    by (rewrite Z.ones_equiv; lia).
  rewrite Z.land_ones by lia.
  pose proof (pow2_bounds _ Hp). pose proof (pow2_bounds _ Hb).
  pose proof (Z.mod_pos_bound p (2 ^ pbits r)).
  rewrite shl_small by lia. apply int64_id. nia.
Qed.

Lemma idxForP_bounds r p :
  rc_ok r -> 0 <= idxForP r p < 2 ^ pbits r * 2 ^ slotsPerCacheLineBits.
Proof.
  intros Hr. rewrite (idxForP_ok r p Hr). destruct Hr as (Hb & Hp & Ho).
  pose proof (pow2_bounds _ Hp). pose proof (pow2_bounds _ Hb).
  pose proof (Z.mod_pos_bound p (2 ^ pbits r)). nia.
Qed.

Lemma idxForP_mod r p :
  rc_ok r -> idxForP r p mod 2 ^ slotsPerCacheLineBits = offset r.
Proof.
  intros Hr. rewrite (idxForP_ok r p Hr). destruct Hr as (Hb & Hp & Ho).
  rewrite Z.add_comm, Z_mod_plus_full. apply Z.mod_small. lia.
Qed.

Lemma idxForP_inj r p q :
  rc_ok r -> 0 <= p <= maxPid r -> 0 <= q <= maxPid r ->
  idxForP r p = idxForP r q -> p = q.
Proof.
  intros Hr Hp Hq. rewrite (maxPid_ok r Hr) in Hp, Hq.
  rewrite !idxForP_ok by done. destruct Hr as (Hb & Hpb & Ho).
  rewrite !Z.mod_small by lia. pose proof (pow2_bounds _ Hb). nia.
Qed.

(** Instances with different offsets name different slots. *)
Lemma idxForP_apart r1 r2 p q :
  rc_ok r1 -> rc_ok r2 -> offset r1 <> offset r2 ->
  idxForP r1 p <> idxForP r2 q.
Proof.
  intros H1 H2 Hne E. apply Hne.
  rewrite <- (idxForP_mod r1 p H1), <- (idxForP_mod r2 q H2). by rewrite E.
Qed.

Lemma own_slot_is_Some w r p :
  rc_ok r -> arr_ok w r -> is_Some (slot w (counters r) (idxForP r p)).
Proof.
  intros Hr (n & Hn & Hlen). apply slot_is_Some. exists n. split; [done|].
  pose proof (idxForP_bounds r p Hr). lia.
Qed.

Lemma arr_ok_shape w w' r : same_shape w w' -> arr_ok w r -> arr_ok w' r.
Proof.
  intros (_ & _ & Hl & _) (n & Hn & Hlen). exists n. by rewrite Hl.
Qed.

Lemma live_rc_shape w w' r : same_shape w w' -> live_rc w r -> live_rc w' r.
Proof.
  intros Hs (Hr & Ha & Hp & c & Hc & Hch). split; [done|].
  split; [by eapply arr_ok_shape|]. split; [done|]. exists c. split; [done|].
  destruct Hs as (_ & _ & _ & Hl).
  apply lookup_lt_is_Some. apply lookup_lt_is_Some in Hch. lia.
Qed.

Lemma pool_ok_shape w w' : same_shape w w' -> pool_ok w -> pool_ok w'.
Proof.
  intros Hs. unfold pool_ok. destruct Hs as (Hm & Hp & Hl & Hc). rewrite Hp.
  intros HF. eapply Forall_impl; [exact HF|]. simpl.
  intros r H Hpb. destruct (H Hpb) as [? ?].
  split; [done|]. eapply arr_ok_shape; [|done]. by repeat split.
Qed.

Lemma inv_shape lk w w' : same_shape w w' -> inv lk w -> inv lk w'.
Proof.
  intros Hs (Hpf & Hpool & m & Hm & Hinit).
  split; [done|]. split; [by eapply pool_ok_shape|].
  exists m. split; [destruct Hs as (-> & _); done|].
  intros Ho. destruct (Hinit Ho) as (Hst & r0 & r1 & E & H0 & H1).
  split; [done|]. exists r0, r1. repeat split; try done; by eapply live_rc_shape.
Qed.

Lemma held_shape lk w w' : same_shape w w' -> held lk w -> held lk w'.
Proof.
  intros Hs (Hinv & m & Hm & Ho & Hw). split; [by eapply inv_shape|].
  exists m. destruct Hs as (-> & _). done.
Qed.

End Index.

(** ** acquire, release, wait and clear, step by step *)

Section Steps.

Context {P : Platform}.

Lemma acquire_eq r w v :
  let a := counters r in
  let i := idxForP r (int64 (getp + 1)) in
  let w1 := log (EvAdd a i 1) (set_slot a i (int32 (v + 1)) w) in
  slot w a i = Some v ->
  acquire r w =
    if int32 (v + 1) =? MaxInt32
    then Panic "refCount does not support more than 2 billion acquires." w1
    else Ret i w1.
Proof.
  intros a i w1 Hv. unfold acquire. fold i. fold a.
  rewrite bind_eq, (atomic_AddInt32_eq a i 1 w v Hv). simpl.
  fold w1. by destruct (int32 (v + 1) =? MaxInt32).
Qed.

Lemma release_eq r i w v g :
  let a := counters r in
  let w1 := log (EvAdd a i (-1)) (set_slot a i (int32 (v - 1)) w) in
  let w2 := log (EvAdd a (idxForP r 0) (-1))
                (set_slot a (idxForP r 0) (int32 (g - 1)) w1) in
  slot w a i = Some v ->
  slot w1 a (idxForP r 0) = Some g ->
  release r i w =
    if 0 <=? int32 (v - 1) then Ret tt w1
    else if int32 (g - 1) =? 0 then chan_send (waitch r) w2
    else Ret tt w2.
Proof.
  intros a w1 w2 Hv Hg. unfold release. fold a.
  rewrite bind_eq, (atomic_AddInt32_eq a i (-1) w v Hv). simpl.
  change (v + -1) with (v - 1). fold w1. rewrite Z.geb_leb.
  destruct (0 <=? int32 (v - 1)); [done|].
  rewrite bind_eq, (atomic_AddInt32_eq a _ (-1) w1 g Hg). simpl.
  change (g + -1) with (g - 1). fold w2.
  by destruct (int32 (g - 1) =? 0).
Qed.

Lemma shard_val_eq w r p v :
  slot w (counters r) (idxForP r p) = Some v -> shard_val w r p = v.
Proof. intros H. unfold shard_val. by rewrite H. Qed.

(** The scan of [wait]: [n] shards from shard [i] on. *)
Lemma wait_loop_spec r :
  rc_ok r ->
  forall n i pend w,
    arr_ok w r -> 1 <= i -> i + Z.of_nat n - 1 <= maxPid r ->
    0 <= pend -> pend + Z.of_nat n < 2 ^ 31 ->
    exists w',
      wait_loop r n i pend w
      = Ret (pend + Z.of_nat (length (List.filter (armed w r) (seqZ i (Z.of_nat n))))) w'
      /\ same_shape w w' /\ chans w' = chans w
      /\ trace w'
         = trace w ++ map (fun p => EvAdd (counters r) (idxForP r p) (-1))
                          (seqZ i (Z.of_nat n))
      /\ (forall p, i <= p < i + Z.of_nat n ->
            slot w' (counters r) (idxForP r p) = Some (int32 (shard_val w r p - 1)))
      /\ (forall a' k,
            ~ (a' = counters r /\ exists p, i <= p < i + Z.of_nat n /\ k = idxForP r p) ->
            slot w' a' k = slot w a' k).
Proof.
  intros Hr. induction n as [|n IH]; intros i pend w Ha Hi Hmax Hpend Hno.
  - exists w. simpl.
    split; [unfold ret; f_equal; lia|].
    split; [apply same_shape_refl|]. split; [done|].
    split; [by rewrite app_nil_r|]. split; [intros p ?; lia|done].
  - destruct (own_slot_is_Some w r i Hr Ha) as [v Hv].
    set (a := counters r) in *.
    set (w1 := log (EvAdd a (idxForP r i) (-1))
                   (set_slot a (idxForP r i) (int32 (v - 1)) w)).
    assert (same_shape w w1) as Hs1.
    { eapply same_shape_trans; [apply same_shape_set_slot|apply same_shape_log]. }
    assert (forall a' k, ~ (a' = a /\ k = idxForP r i) -> slot w1 a' k = slot w a' k)
      as Hfr1.
    { intros a' k Hk. unfold w1. rewrite slot_log.
      apply slot_set_slot_ne; [|done]. by eapply slot_nonneg. }
    assert (int64 (i + 1) = i + 1) as Ei.
    { apply int64_id. rewrite (maxPid_ok r Hr) in Hmax.
      destruct Hr as (_ & Hp & _). pose proof (pow2_bounds _ Hp). lia. }
    set (pend1 := if int32 (v - 1) >=? 0 then int32 (pend + 1) else pend).
    assert (pend1 = pend + (if armed w r i then 1 else 0)) as Ep.
    { unfold pend1, armed. rewrite (shard_val_eq w r i v Hv), Z.geb_leb.
      destruct (0 <=? int32 (v - 1)); [|lia]. apply int32_id. lia. }
    destruct (IH (i + 1) pend1 w1) as (w' & Eq & Hs & Hc & Ht & Hdec & Hfr).
    { by eapply arr_ok_shape. } { lia. } { lia. }
    { rewrite Ep. destruct (armed w r i); lia. }
    { rewrite Ep. destruct (armed w r i); lia. }
    assert (forall p, i + 1 <= p < i + 1 + Z.of_nat n ->
              slot w1 a (idxForP r p) = slot w a (idxForP r p)) as Hsame.
    { intros p Hp. apply Hfr1. intros [_ E].
      apply (idxForP_inj r p i Hr) in E; lia. }
    assert (List.filter (armed w1 r) (seqZ (i + 1) (Z.of_nat n))
            = List.filter (armed w r) (seqZ (i + 1) (Z.of_nat n))) as Ef.
    { apply List.filter_ext_in. intros p Hp.
      apply list_elem_of_In, elem_of_seqZ in Hp.
      unfold armed, shard_val. fold a. rewrite Hsame; [done|lia]. }
    exists w'. split.
    { cbn [wait_loop]. fold a.
      rewrite bind_eq, (atomic_AddInt32_eq a _ (-1) w v Hv). cbn [bind_res].
      change (v + -1) with (v - 1). fold w1. fold pend1. rewrite Ei, Eq, Ef.
      f_equal. rewrite (seqZ_cons i) by lia.
      replace (Z.succ i) with (i + 1) by lia.
      replace (Z.pred (Z.of_nat (S n))) with (Z.of_nat n) by lia.
      rewrite Ep. cbn [List.filter]. destruct (armed w r i); cbn [length]; lia. }
    split; [by eapply same_shape_trans|].
    split; [by rewrite Hc|].
    split.
    { rewrite Ht. unfold w1 at 1. simpl. rewrite <- app_assoc. f_equal.
      rewrite (seqZ_cons i (Z.of_nat (S n))) by lia.
      replace (Z.succ i) with (i + 1) by lia.
      by replace (Z.pred (Z.of_nat (S n))) with (Z.of_nat n) by lia. }
    split.
    { intros p Hp. destruct (decide (p = i)) as [->|Hne].
      - rewrite Hfr.
        + unfold w1. rewrite slot_log, slot_set_slot_eq by (by rewrite Hv).
          by rewrite (shard_val_eq w r i v Hv).
        + intros [_ (q & Hq & E)]. apply (idxForP_inj r i q Hr) in E; lia.
      - rewrite Hdec by lia. unfold shard_val. fold a.
        rewrite Hsame by lia. done. }
    intros a' k Hk. rewrite Hfr.
    + apply Hfr1. intros [-> ->]. apply Hk. split; [done|]. exists i. lia.
    + intros [-> (q & Hq & ->)]. apply Hk. split; [done|]. exists q. lia.
Qed.

Lemma shards_range r p : rc_ok r -> In p (shards r) <-> 1 <= p <= maxPid r.
Proof.
  intros Hr. unfold shards. rewrite <- list_elem_of_In, elem_of_seqZ. lia.
Qed.

Lemma maxPid_range r : rc_ok r -> 0 <= maxPid r < 2 ^ 31.
Proof.
  intros Hr. rewrite (maxPid_ok r Hr). destruct Hr as (_ & Hp & _).
  pose proof (pow2_bounds _ Hp). lia.
Qed.

(** [wait], whole: the world [w'] is the one in which the scan and the
    addition to the aggregation slot are done, before any receive. *)
Lemma wait_spec r w :
  rc_ok r -> arr_ok w r ->
  let a := counters r in
  let n := armed_count w r in
  let agg := shard_val w r 0 in
  exists w',
    wait r w = (if (0 <? n) && (0 <? int32 (agg + n))
                then chan_recv (waitch r) w' else Ret tt w')
    /\ same_shape w w' /\ chans w' = chans w
    /\ trace w'
       = trace w ++ map (fun p => EvAdd a (idxForP r p) (-1)) (shards r)
                 ++ (if 0 <? n then [EvAdd a (idxForP r 0) n] else [])
    /\ (forall p, 1 <= p <= maxPid r ->
          slot w' a (idxForP r p) = Some (int32 (shard_val w r p - 1)))
    /\ slot w' a (idxForP r 0) = Some (if 0 <? n then int32 (agg + n) else agg)
    /\ (forall a' k, ~ (a' = a /\ own_slot r k) -> slot w' a' k = slot w a' k).
Proof.
  intros Hr Ha a n agg. pose proof (maxPid_range r Hr) as Hm.
  destruct (wait_loop_spec r Hr (Z.to_nat (maxPid r)) 1 0 w)
    as (w1 & Eq & Hs & Hc & Ht & Hdec & Hfr); try lia; [done|].
  rewrite Z2Nat.id in Eq, Ht, Hdec, Hfr by lia.
  fold (shards r) in Eq, Ht. fold a in Ht, Hdec, Hfr.
  change (0 + Z.of_nat (length (List.filter (armed w r) (shards r))))
    with (0 + n) in Eq. rewrite Z.add_0_l in Eq.
  destruct (own_slot_is_Some w r 0 Hr Ha) as [g Hg]. fold a in Hg.
  assert (agg = g) as Eg by (by apply shard_val_eq). rewrite Eg.
  assert (slot w1 a (idxForP r 0) = Some g) as Hg1.
  { rewrite Hfr; [done|]. intros [_ (q & Hq & E)].
    apply (idxForP_inj r 0 q Hr) in E; lia. }
  unfold wait. rewrite bind_eq, Eq. cbn [bind_res]. fold a. rewrite Z.gtb_ltb.
  destruct (Z.ltb_spec 0 n) as [Hn|Hn]; cbn [andb].
  - set (w2 := log (EvAdd a (idxForP r 0) n)
                   (set_slot a (idxForP r 0) (int32 (g + n)) w1)).
    exists w2. split.
    { rewrite bind_eq, (atomic_AddInt32_eq a _ n w1 g Hg1). cbn [bind_res].
      fold w2. rewrite Z.gtb_ltb. by destruct (0 <? int32 (g + n)). }
    split.
    { eapply same_shape_trans; [exact Hs|]. unfold w2.
      eapply same_shape_trans; [apply same_shape_set_slot|apply same_shape_log]. }
    split; [done|]. split.
    { unfold w2. cbn [trace log]. change (trace (set_slot _ _ _ w1)) with (trace w1).
      rewrite Ht. by rewrite <- app_assoc. }
    pose proof (idxForP_bounds r 0 Hr) as Hb0.
    split.
    { intros p Hp. unfold w2. rewrite slot_log, slot_set_slot_ne; [|lia|].
      - apply Hdec. lia.
      - intros [_ E]. apply (idxForP_inj r p 0 Hr) in E; lia. }
    split.
    { unfold w2. rewrite slot_log. apply slot_set_slot_eq. by rewrite Hg1. }
    intros a' k Hk. unfold w2. rewrite slot_log, slot_set_slot_ne; [|lia|].
    + apply Hfr. intros [-> (q & _ & ->)]. apply Hk. split; [done|]. by exists q.
    + intros [-> ->]. apply Hk. split; [done|]. by exists 0.
  - exists w1. split; [done|]. split; [done|]. split; [done|].
    split; [by rewrite Ht, app_nil_r|].
    split; [intros p Hp; apply Hdec; lia|]. split; [done|].
    intros a' k Hk. apply Hfr. intros [-> (q & _ & ->)].
    apply Hk. split; [done|]. by exists q.
Qed.

Lemma clear_loop_spec r :
  rc_ok r ->
  forall n i w,
    arr_ok w r -> 1 <= i -> i + Z.of_nat n - 1 <= maxPid r ->
    exists w',
      clear_loop r n i w = Ret tt w'
      /\ same_shape w w' /\ chans w' = chans w
      /\ (forall p, i <= p < i + Z.of_nat n ->
            slot w' (counters r) (idxForP r p) = Some 0)
      /\ (forall a' k,
            ~ (a' = counters r /\ exists p, i <= p < i + Z.of_nat n /\ k = idxForP r p) ->
            slot w' a' k = slot w a' k).
Proof.
  intros Hr. pose proof (maxPid_range r Hr) as Hm.
  induction n as [|n IH]; intros i w Ha Hi Hmax.
  - exists w. split; [done|]. split; [apply same_shape_refl|]. split; [done|].
    split; [intros p ?; lia|done].
  - pose proof (own_slot_is_Some w r i Hr Ha) as Hv.
    set (a := counters r) in *.
    set (w1 := log (EvStore a (idxForP r i) 0) (set_slot a (idxForP r i) 0 w)).
    assert (same_shape w w1) as Hs1.
    { eapply same_shape_trans; [apply same_shape_set_slot|apply same_shape_log]. }
    pose proof (idxForP_bounds r i Hr) as Hbi.
    assert (int64 (i + 1) = i + 1) as Ei by (apply int64_id; lia).
    destruct (IH (i + 1) w1) as (w' & Eq & Hs & Hc & Hz & Hfr);
      [by eapply arr_ok_shape|lia|lia|].
    exists w'. split.
    { cbn [clear_loop]. fold a.
      rewrite bind_eq, (atomic_StoreInt32_eq a _ 0 w Hv). cbn [bind_res].
      fold w1. by rewrite Ei. }
    split; [by eapply same_shape_trans|]. split; [by rewrite Hc|]. split.
    { intros p Hp. destruct (decide (p = i)) as [->|Hne].
      - rewrite Hfr.
        + unfold w1. rewrite slot_log. by apply slot_set_slot_eq.
        + intros [_ (q & Hq & E)]. apply (idxForP_inj r i q Hr) in E; lia.
      - apply Hz. lia. }
    intros a' k Hk. rewrite Hfr.
    + unfold w1. rewrite slot_log. apply slot_set_slot_ne; [lia|].
      intros [-> ->]. apply Hk. split; [done|]. exists i. lia.
    + intros [-> (q & Hq & ->)]. apply Hk. split; [done|]. exists q. lia.
Qed.

Lemma clear_spec r w :
  rc_ok r -> arr_ok w r ->
  exists w',
    clear r w = Ret tt w' /\ same_shape w w' /\ chans w' = chans w
    /\ quiet w' r
    /\ (forall a' k, ~ (a' = counters r /\ own_slot r k) -> slot w' a' k = slot w a' k).
Proof.
  intros Hr Ha. pose proof (maxPid_range r Hr) as Hm.
  pose proof (own_slot_is_Some w r 0 Hr Ha) as Hv.
  set (a := counters r) in *.
  set (w1 := log (EvStore a (idxForP r 0) 0) (set_slot a (idxForP r 0) 0 w)).
  assert (same_shape w w1) as Hs1.
  { eapply same_shape_trans; [apply same_shape_set_slot|apply same_shape_log]. }
  pose proof (idxForP_bounds r 0 Hr) as Hb0.
  destruct (clear_loop_spec r Hr (Z.to_nat (maxPid r)) 1 w1)
    as (w' & Eq & Hs & Hc & Hz & Hfr); [by eapply arr_ok_shape|lia|lia|].
  rewrite Z2Nat.id in Hz, Hfr by lia. fold a in Hz, Hfr.
  exists w'. split.
  { unfold clear. fold a.
    by rewrite bind_eq, (atomic_StoreInt32_eq a _ 0 w Hv). }
  split; [by eapply same_shape_trans|]. split; [by rewrite Hc|]. split.
  - intros p. fold a.
    assert (idxForP r p = idxForP r (p mod 2 ^ pbits r)) as ->.
    { rewrite !idxForP_ok by done. by rewrite Z.mod_mod by lia. }
    rewrite (maxPid_ok r Hr) in Hm, Hz, Hfr.
    pose proof (Z.mod_pos_bound p (2 ^ pbits r)) as Hq.
    destruct (decide (p mod 2 ^ pbits r = 0)) as [->|Hne].
    + rewrite Hfr.
      * unfold w1. rewrite slot_log. by apply slot_set_slot_eq.
      * intros [_ (q & Hq' & E)]. apply (idxForP_inj r 0 q Hr) in E;
          rewrite ?(maxPid_ok r Hr); lia.
    + apply Hz. lia.
  - intros a' k Hk. rewrite Hfr.
    + unfold w1. rewrite slot_log. apply slot_set_slot_ne; [lia|].
      intros [-> ->]. apply Hk. split; [done|]. by exists 0.
    + intros [-> (q & _ & ->)]. apply Hk. split; [done|]. by exists q.
Qed.

End Steps.

(** ** Footprints *)

Lemma confined_AddInt32 a (S : Z -> Prop) i d w :
  S i -> confined a S w (atomic_AddInt32 a i d w).
Proof.
  intros HS. unfold atomic_AddInt32. destruct (slot w a i) as [v|] eqn:Hv.
  - constructor. apply touches_only_access; [by eapply slot_nonneg|done|done].
  - constructor. apply touches_only_refl.
Qed.

Lemma confined_StoreInt32 a (S : Z -> Prop) i x w :
  S i -> confined a S w (atomic_StoreInt32 a i x w).
Proof.
  intros HS. unfold atomic_StoreInt32. destruct (slot w a i) as [v|] eqn:Hv.
  - constructor. apply touches_only_access; [by eapply slot_nonneg|done|done].
  - constructor. apply touches_only_refl.
Qed.

Lemma confined_chan_send a S c w : confined a S w (chan_send c w).
Proof.
  unfold chan_send. destruct c as [c|]; [|constructor; apply touches_only_refl].
  destruct (chans w !! c) as [n|]; [|constructor; apply touches_only_refl].
  destruct (n <? 1).
  - constructor. by apply touches_only_chan.
  - constructor; [by apply touches_only_log|].
    intros w''. constructor. apply touches_only_refl.
Qed.

Lemma confined_chan_recv a S c w : confined a S w (chan_recv c w).
Proof.
  unfold chan_recv. destruct c as [c|]; [|constructor; apply touches_only_refl].
  destruct (chans w !! c) as [n|]; [|constructor; apply touches_only_refl].
  destruct (0 <? n).
  - constructor. by apply touches_only_chan.
  - constructor; [by apply touches_only_log|].
    intros w''. constructor. apply touches_only_refl.
Qed.

Lemma confined_ret {A} a S (x : A) w : confined a S w (ret x w).
Proof. constructor. apply touches_only_refl. Qed.

Lemma confined_panic {A} a S msg w : confined a S w (@panic A msg w).
Proof. constructor. apply touches_only_refl. Qed.

Section Footprint.

Context {P : Platform}.

Lemma own_slot_idxForP r p : own_slot r (idxForP r p).
Proof. by exists p. Qed.

Lemma confined_acquire r w :
  confined (counters r) (own_slot r) w (acquire r w).
Proof.
  unfold acquire. rewrite bind_eq. apply confined_bind.
  - apply confined_AddInt32, own_slot_idxForP.
  - intros v w'. destruct (v =? MaxInt32);
      [apply confined_panic|apply confined_ret].
Qed.

Lemma confined_release r p w :
  confined (counters r) (own_slot r) w (release r (idxForP r p) w).
Proof.
  unfold release. rewrite bind_eq. apply confined_bind.
  - apply confined_AddInt32, own_slot_idxForP.
  - intros v w'. destruct (v >=? 0); [apply confined_ret|].
    rewrite bind_eq. apply confined_bind.
    + apply confined_AddInt32, own_slot_idxForP.
    + intros g w''. destruct (negb (g =? 0));
        [apply confined_ret|apply confined_chan_send].
Qed.

Lemma confined_wait_loop r n :
  forall i pend w,
    confined (counters r) (own_slot r) w (wait_loop r n i pend w).
Proof.
  induction n as [|n IH]; intros i pend w; cbn [wait_loop].
  - apply confined_ret.
  - rewrite bind_eq. apply confined_bind.
    + apply confined_AddInt32, own_slot_idxForP.
    + intros v w'. apply IH.
Qed.

Lemma confined_wait r w : confined (counters r) (own_slot r) w (wait r w).
Proof.
  unfold wait. rewrite bind_eq. apply confined_bind.
  - apply confined_wait_loop.
  - intros n w'. destruct (n >? 0); [|apply confined_ret].
    rewrite bind_eq. apply confined_bind.
    + apply confined_AddInt32, own_slot_idxForP.
    + intros g w''. destruct (g >? 0);
        [apply confined_chan_recv|apply confined_ret].
Qed.

Lemma confined_clear_loop r n :
  forall i w, confined (counters r) (own_slot r) w (clear_loop r n i w).
Proof.
  induction n as [|n IH]; intros i w; cbn [clear_loop].
  - apply confined_ret.
  - rewrite bind_eq. apply confined_bind.
    + apply confined_StoreInt32, own_slot_idxForP.
    + intros _ w'. apply IH.
Qed.

Lemma confined_clear r w : confined (counters r) (own_slot r) w (clear r w).
Proof.
  unfold clear. rewrite bind_eq. apply confined_bind.
  - apply confined_StoreInt32, own_slot_idxForP.
  - intros _ w'. apply confined_clear_loop.
Qed.

Lemma confined_world_of {A} a S w (r : res A) a' k :
  confined a S w r -> ~ (a' = a /\ S k) ->
  slot (world_of r) a' k = slot w a' k.
Proof.
  intros H Hk. inversion H as [? ? ? T|? ? ? T|? ? T|? ? ? ? T _]; subst; simpl;
    destruct T as (_ & Hfr & _); by apply Hfr.
Qed.

End Footprint.


(** ** The power-of-two helper *)

(** [y] is not negative, has no bit above [k], and has its [m] bits from
    [k] downwards set. *)
Lemma smear_testbit y n i :
  0 <= n -> 0 <= i ->
  Z.testbit (Z.lor y (Z.shiftr y n)) i = Z.testbit y i || Z.testbit y (i + n).
Proof. intros Hn Hi. by rewrite Z.lor_spec, Z.shiftr_spec. Qed.

Lemma smear_step k m y :
  0 < m ->
  (0 <= y /\ (forall j, k < j -> Z.testbit y j = false) /\
   (forall j, 0 <= j -> k - m < j <= k -> Z.testbit y j = true)) ->
  let y' := Z.lor y (Z.shiftr y m) in
  0 <= y' /\ (forall j, k < j -> Z.testbit y' j = false) /\
  (forall j, 0 <= j -> k - 2 * m < j <= k -> Z.testbit y' j = true).
Proof.
  intros Hm (Hy & Hhi & Hlo) y'. split.
  { apply Z.lor_nonneg. split; [done|]. by apply Z.shiftr_nonneg. }
  split.
  - intros j Hj. destruct (Z.ltb_spec j 0) as [Hneg|Hpos].
    { by apply Z.testbit_neg_r. }
    unfold y'. rewrite smear_testbit by lia. rewrite !Hhi by lia. done.
  - intros j Hj0 Hj. unfold y'. rewrite smear_testbit by lia.
    destruct (Z.ltb_spec (k - m) j) as [H|H].
    + rewrite Hlo by lia. done.
    + rewrite (Hlo (j + m)) by lia. apply orb_true_r.
Qed.

Lemma smear_all x :
  0 < x < 2 ^ 32 ->
  let y1 := Z.lor x (Z.shiftr x 1) in
  let y2 := Z.lor y1 (Z.shiftr y1 2) in
  let y3 := Z.lor y2 (Z.shiftr y2 4) in
  let y4 := Z.lor y3 (Z.shiftr y3 8) in
  let y5 := Z.lor y4 (Z.shiftr y4 16) in
  y5 = Z.ones (Z.log2 x + 1).
Proof.
  intros Hx y1 y2 y3 y4 y5. set (k := Z.log2 x).
  assert (0 <= k < 32) as Hk.
  { split; [apply Z.log2_nonneg|]. apply Z.log2_lt_pow2; lia. }
  assert (0 <= x /\ (forall j, k < j -> Z.testbit x j = false) /\
          (forall j, 0 <= j -> k - 1 < j <= k -> Z.testbit x j = true)) as H0.
  { split; [lia|]. split.
    - intros j Hj. apply Z.bits_above_log2; lia.
    - intros j _ Hj. assert (j = k) as -> by lia. apply Z.bit_log2. lia. }
  pose proof (smear_step k 1 x ltac:(lia) H0) as H1. fold y1 in H1.
  pose proof (smear_step k 2 y1 ltac:(lia) H1) as H2. fold y2 in H2.
  pose proof (smear_step k 4 y2 ltac:(lia) H2) as H3. fold y3 in H3.
  pose proof (smear_step k 8 y3 ltac:(lia) H3) as H4. fold y4 in H4.
  pose proof (smear_step k 16 y4 ltac:(lia) H4) as (_ & Hhi & Hlo). fold y5 in Hhi, Hlo.
  apply Z.bits_inj'. intros j Hj.
  destruct (Z.ltb_spec k j) as [H|H].
  - rewrite Hhi by lia. symmetry. apply Z.ones_spec_high. lia.
  - rewrite Hlo by lia. symmetry. apply Z.ones_spec_low. lia.
Qed.

Lemma roundNearestPowerOf2_eq v :
  1 <= v <= 2 ^ 32 -> roundNearestPowerOf2 v = 2 ^ Z.log2_up v.
Proof.
  intros Hv. unfold roundNearestPowerOf2.
  rewrite (int64_id (v - 1)) by lia.
  destruct (decide (v = 1)) as [->|Hne]; [reflexivity|].
  pose proof (smear_all (v - 1) ltac:(lia)) as E. cbv zeta in E. rewrite E.
  assert (0 <= Z.log2 (v - 1) < 32) as Hk.
  { split; [apply Z.log2_nonneg|]. apply Z.log2_lt_pow2; lia. }
  rewrite Z.ones_equiv.
  assert (2 ^ (Z.log2 (v - 1) + 1) <= 2 ^ 32) by (apply Z.pow_le_mono_r; lia).
  assert (0 < 2 ^ (Z.log2 (v - 1) + 1)) by (apply Z.pow_pos_nonneg; lia).
  rewrite int64_id by lia.
  rewrite Z.log2_up_eqn by lia.
  replace (Z.pred v) with (v - 1) by lia.
  replace (Z.succ (Z.log2 (v - 1))) with (Z.log2 (v - 1) + 1) by lia. lia.
Qed.

(** ** The allocator *)

Opaque roundNearestPowerOf2.

Section Allocator.

Context {P : Platform}.

Lemma extends_refl w : extends w w.
Proof. split; [done|lia]. Qed.

Lemma extends_trans w1 w2 w3 : extends w1 w2 -> extends w2 w3 -> extends w1 w3.
Proof. intros [A1 B1] [A2 B2]. split; [eauto|lia]. Qed.

Lemma same_shape_extends w w' : same_shape w w' -> extends w w'.
Proof.
  intros (_ & _ & Hl & Hc). split; [|lia]. intros a n. by rewrite Hl.
Qed.

Lemma arr_ok_extends w w' r : extends w w' -> arr_ok w r -> arr_ok w' r.
Proof. intros [He _] (n & Hn & Hlen). exists n. split; [by apply He|done]. Qed.

Lemma live_rc_extends w w' r : extends w w' -> live_rc w r -> live_rc w' r.
Proof.
  intros He (Hr & Ha & Hp & c & Hc & Hch). split; [done|].
  split; [by eapply arr_ok_extends|]. split; [done|]. exists c. split; [done|].
  destruct He as [_ Hl].
  apply lookup_lt_is_Some. apply lookup_lt_is_Some in Hch. lia.
Qed.

Lemma extends_with_mutexes f w : extends w (with_mutexes f w).
Proof. split; [done|simpl; lia]. Qed.

Lemma extends_with_pool f w : extends w (with_pool f w).
Proof. split; [done|simpl; lia]. Qed.

Lemma extends_make_chan w : extends w (with_chans (fun l => l ++ [0]) w).
Proof. split; [done|]. simpl. rewrite length_app. lia. Qed.

Lemma extends_make_counters w cs : extends w (with_arrays (fun l => l ++ [cs]) w).
Proof.
  split; [|simpl; lia]. intros a n. unfold alen. simpl.
  destruct (arrays w !! a) as [x|] eqn:E; [|done]. simpl. intros [= <-].
  by rewrite (lookup_app_l_Some _ _ _ _ E).
Qed.

(** Reuse of a drained instance of the right width clears it in place. *)
Lemma allocate_reuse r w :
  live_rc w r ->
  exists w',
    allocateRefCount (Some r) w = Ret r w' /\ same_shape w w' /\ chans w' = chans w
    /\ quiet w' r
    /\ (forall a' k, ~ (a' = counters r /\ own_slot r k) -> slot w' a' k = slot w a' k).
Proof.
  intros (Hr & Ha & Hp & _).
  destruct (clear_spec r w Hr Ha) as (w' & Eq & Hs & Hc & Hq & Hfr).
  exists w'. split; [|done].
  unfold allocateRefCount. fold platform_pbits. rewrite Hp, Z.eqb_refl.
  by rewrite bind_eq, Eq.
Qed.

Lemma shl_shl_pbits :
  platform_ok ->
  shl (shl 1 platform_pbits) slotsPerCacheLineBits
  = 2 ^ platform_pbits * 2 ^ slotsPerCacheLineBits.
Proof.
  intros [Hb Hp]. pose proof (pow2_bounds _ Hp).
  rewrite (shl_small 1) by lia. rewrite Z.mul_1_l. apply shl_small; lia.
Qed.

(** What [allocateRefCount] does when it builds a fresh array. *)
Lemma allocate_new w :
  platform_ok -> pool_ok w ->
  let n := shl (shl 1 platform_pbits) slotsPerCacheLineBits in
  let a := length (arrays w) in
  let c := length (chans w) in
  let newRc := {| pbits := platform_pbits; counters := a; offset := 0; waitch := None |} in
  exists w',
    (a0 <- make_counters n ;;
     let newRc := {| pbits := platform_pbits; counters := a0; offset := 0;
                     waitch := None |} in
     pool_Put (set_offset (int64 (offset newRc + 1)) newRc) ;;;
     c0 <- make_chan ;; ret (set_waitch (Some c0) newRc)) w
    = Ret (set_waitch (Some c) newRc) w'
    /\ live_rc w' (set_waitch (Some c) newRc) /\ pool_ok w'
    /\ mutexes w' = mutexes w /\ extends w w'.
Proof.
  intros Hpf Hpool n a c newRc. pose proof Hpf as [Hb Hp].
  pose proof (pow2_bounds _ Hp) as Hpp.
  assert (1 <= 2 ^ slotsPerCacheLineBits <= 2 ^ 31) as Hbb by (apply pow2_bounds; lia).
  assert (2 <= 2 ^ slotsPerCacheLineBits) as Hb2.
  { change 2 with (2 ^ 1) at 1. apply Z.pow_le_mono_r; lia. }
  assert (n = 2 ^ platform_pbits * 2 ^ slotsPerCacheLineBits) as En
    by (by apply shl_shl_pbits).
  set (w1 := with_arrays (fun x => x ++ [replicate (Z.to_nat n) 0]) w).
  set (w2 := with_pool (fun p => set_offset 1 newRc :: p) w1).
  set (w3 := with_chans (fun x => x ++ [0]) w2).
  assert (extends w w3) as Hext.
  { eapply extends_trans; [apply extends_make_counters|].
    eapply extends_trans; [apply extends_with_pool|apply extends_make_chan]. }
  assert (arr_ok w3 newRc) as Harr.
  { exists (Z.to_nat n). split; [|simpl; lia].
    unfold alen. simpl. rewrite lookup_app_r by done.
    rewrite Nat.sub_diag. simpl. by rewrite length_replicate. }
  exists w3. split.
  { rewrite bind_eq. unfold make_counters.
    destruct (Z.ltb_spec n 0); [nia|]. cbn [bind_res]. reflexivity. }
  split.
  { split; [repeat split; simpl; lia|]. split; [done|]. split; [done|].
    exists c. split; [done|]. simpl. apply lookup_lt_is_Some.
    rewrite length_app. simpl. lia. }
  split.
  { unfold pool_ok. simpl. constructor.
    - intros _. split; [repeat split; simpl; lia|done].
    - eapply Forall_impl; [exact Hpool|]. simpl. intros r H Hpb.
      destruct (H Hpb). split; [done|]. by eapply arr_ok_extends. }
  split; done.
Qed.

(** Allocation with nothing to reuse: a live refCount, the invariant of
    the pool kept. *)
Lemma allocate_fresh w :
  platform_ok -> pool_ok w ->
  exists r w',
    allocateRefCount None w = Ret r w' /\ live_rc w' r /\ pool_ok w'
    /\ mutexes w' = mutexes w /\ extends w w'.
Proof.
  intros Hpf Hpool. pose proof Hpf as [Hb Hp].
  unfold allocateRefCount. fold platform_pbits. rewrite bind_eq.
  unfold pool_Get. destruct (pool w) as [|pr rest] eqn:Epool; cbn [bind_res].
  { destruct (allocate_new w Hpf Hpool) as (w' & Eq & H1 & H2 & H3 & H4).
    eexists _, w'. split; [exact Eq|done]. }
  set (w0 := with_pool (fun _ => rest) w).
  assert (pool_ok w0) as Hpool0.
  { unfold pool_ok in *. simpl. rewrite Epool in Hpool.
    by apply Forall_cons in Hpool as [_ ?]. }
  destruct (Z.eqb_spec (pbits pr) platform_pbits) as [Epb|Epb].
  - assert (rc_ok pr /\ arr_ok w pr) as [Hr Ha].
    { unfold pool_ok in Hpool. rewrite Epool in Hpool.
      apply Forall_cons in Hpool as [H _]. by apply H. }
    pose proof Hr as (_ & _ & Ho).
    assert (1 <= 2 ^ slotsPerCacheLineBits <= 2 ^ 31) as Hbb
      by (apply pow2_bounds; lia).
    assert (int64 (shl 1 slotsPerCacheLineBits - 1) = 2 ^ slotsPerCacheLineBits - 1)
      as ->.
    { rewrite shl_small by lia. rewrite Z.mul_1_l. apply int64_id. lia. }
    set (c := length (chans w)).
    destruct (Z.ltb_spec (offset pr) (2 ^ slotsPerCacheLineBits - 1)) as [Hlt|Hge].
    + rewrite (int64_id (offset pr + 1)) by lia.
      set (w1 := with_pool (fun p => set_offset (offset pr + 1) pr :: p) w0).
      exists (set_waitch (Some c) pr), (with_chans (fun x => x ++ [0]) w1).
      assert (extends w (with_chans (fun x => x ++ [0]) w1)) as Hext.
      { eapply extends_trans; [apply (extends_with_pool (fun _ => rest))|].
        eapply extends_trans; [apply extends_with_pool|apply extends_make_chan]. }
      split; [reflexivity|]. split.
      { split; [done|]. split; [by eapply (arr_ok_extends w)|]. split; [done|].
        exists c. split; [done|]. simpl. apply lookup_lt_is_Some.
        rewrite length_app. simpl. lia. }
      split; [|done].
      unfold pool_ok. simpl. constructor.
      * intros _. split; [repeat split; simpl; lia|].
        by eapply (arr_ok_extends w).
      * eapply Forall_impl; [exact Hpool0|]. simpl. intros r H Hpb.
        destruct (H Hpb) as [? Harr0]. split; [done|].
        eapply arr_ok_extends; [|exact Harr0].
        eapply extends_trans; [apply extends_with_pool|apply extends_make_chan].
    + exists (set_waitch (Some c) pr), (with_chans (fun x => x ++ [0]) w0).
      assert (extends w (with_chans (fun x => x ++ [0]) w0)) as Hext.
      { eapply extends_trans; [apply (extends_with_pool (fun _ => rest))|].
        apply extends_make_chan. }
      split; [reflexivity|]. split.
      { split; [done|]. split; [by eapply (arr_ok_extends w)|]. split; [done|].
        exists c. split; [done|]. simpl. apply lookup_lt_is_Some.
        rewrite length_app. simpl. lia. }
      split; [|done].
      unfold pool_ok. simpl.
      eapply Forall_impl; [exact Hpool0|]. simpl. intros r H Hpb.
      destruct (H Hpb). split; [done|].
      eapply arr_ok_extends; [|done]. apply extends_make_chan.
  - destruct (allocate_new w0 Hpf Hpool0) as (w' & Eq & H1 & H2 & H3 & H4).
    eexists _, w'. split; [exact Eq|]. split; [done|]. split; [done|].
    split; [done|].
    eapply extends_trans; [apply (extends_with_pool (fun _ => rest))|done].
Qed.

End Allocator.

(** ** The mutex *)

Section MutexSteps.

Context {P : Platform}.

Lemma load_mutex_eq lk w m : mutexes w !! lk = Some m -> load_mutex lk w = Ret m w.
Proof. intros H. unfold load_mutex. by rewrite H. Qed.

Lemma update_mutex_eq lk f w m :
  mutexes w !! lk = Some m ->
  update_mutex lk f w = Ret tt (with_mutexes (<[lk := f m]>) w).
Proof. intros H. unfold update_mutex. by rewrite H. Qed.

Lemma lookup_updated lk w m m' :
  mutexes w !! lk = Some m ->
  mutexes (with_mutexes (<[lk := m']>) w) !! lk = Some m'.
Proof.
  intros H. simpl. apply list_lookup_insert_eq. by eapply lookup_lt_Some.
Qed.

Lemma atomic_LoadState_eq lk w m :
  mutexes w !! lk = Some m -> atomic_LoadState lk w = Ret (state m) w.
Proof.
  intros H. unfold atomic_LoadState. by rewrite bind_eq, (load_mutex_eq lk w m H).
Qed.

(** Replacing the mutex by one that satisfies the invariant keeps it. *)
Lemma inv_update lk w m m' :
  inv lk w -> mutexes w !! lk = Some m ->
  (once m' = true ->
     0 <= state m' <= 3 /\
     exists r0 r1, refCounts m' = (Some r0, Some r1) /\ live_rc w r0 /\ live_rc w r1) ->
  inv lk (with_mutexes (<[lk := m']>) w).
Proof.
  intros (Hpf & Hpool & _) Hm Hok. split; [done|]. split; [exact Hpool|].
  exists m'. split; [by eapply lookup_updated|exact Hok].
Qed.

Lemma inv_mutex lk w :
  inv lk w -> exists m, mutexes w !! lk = Some m.
Proof. intros (_ & _ & m & Hm & _). by exists m. Qed.

Lemma ready_mutex lk w :
  ready lk w ->
  exists m r0 r1, mutexes w !! lk = Some m /\ once m = true /\ 0 <= state m <= 3 /\
    refCounts m = (Some r0, Some r1) /\ live_rc w r0 /\ live_rc w r1.
Proof.
  intros ((_ & _ & m & Hm & Hok) & m' & Hm' & Ho).
  assert (m' = m) as -> by congruence.
  destruct (Hok Ho) as (Hst & r0 & r1 & HE & H0 & H1). by exists m, r0, r1.
Qed.

Lemma held_ready lk w : held lk w -> ready lk w.
Proof. intros (Hi & m & Hm & Ho & _). split; [done|]. by exists m. Qed.

Lemma held_wmu lk w m : held lk w -> mutexes w !! lk = Some m -> wmu m = true.
Proof. intros (_ & m' & Hm' & _ & Hw) Hm. congruence. Qed.

(** [once.Do(init)] leaves an initialised mutex. *)
Lemma once_init lk w :
  inv lk w -> exists w', once_Do lk (init lk) w = Ret tt w' /\ ready lk w'.
Proof.
  intros Hinv. pose proof Hinv as (Hpf & Hpool & m & Hm & Hok).
  unfold once_Do. rewrite bind_eq, (load_mutex_eq lk w m Hm). cbn [bind_res].
  destruct (once m) eqn:Ho.
  { exists w. split; [done|]. split; [done|]. by exists m. }
  set (w1 := with_mutexes (<[lk := set_state 0 m]>) w).
  destruct (allocate_fresh w1 Hpf Hpool) as (r0 & w2 & E0 & Hl0 & Hpool2 & Hm2 & Hx2).
  assert (mutexes w2 !! lk = Some (set_state 0 m)) as Hlk2.
  { rewrite Hm2. by eapply lookup_updated. }
  set (m3 := set_refCounts_at 0 (Some r0) (set_state 0 m)).
  set (w3 := with_mutexes (<[lk := m3]>) w2).
  destruct (allocate_fresh w3 Hpf Hpool2) as (r1 & w4 & E1 & Hl1 & Hpool4 & Hm4 & Hx4).
  assert (mutexes w4 !! lk = Some m3) as Hlk4.
  { rewrite Hm4. by eapply lookup_updated. }
  set (m5 := set_refCounts_at 1 (Some r1) m3).
  set (w5 := with_mutexes (<[lk := m5]>) w4).
  assert (mutexes w5 !! lk = Some m5) as Hlk5 by (by eapply lookup_updated).
  set (w6 := with_mutexes (<[lk := set_once true m5]>) w5).
  exists w6. split.
  { rewrite bind_eq. unfold init.
    rewrite bind_eq, (update_mutex_eq lk _ w m Hm). cbn [bind_res]. fold w1.
    rewrite bind_eq, E0. cbn [bind_res].
    rewrite bind_eq, (update_mutex_eq lk _ w2 _ Hlk2). cbn [bind_res].
    fold m3. fold w3. rewrite bind_eq, E1. cbn [bind_res].
    rewrite (update_mutex_eq lk _ w4 _ Hlk4). cbn [bind_res].
    fold m5. fold w5. by rewrite (update_mutex_eq lk _ w5 _ Hlk5). }
  assert (live_rc w4 r0) as Hl0'.
  { eapply live_rc_extends; [exact Hx4|]. exact Hl0. }
  split.
  - split; [done|]. split; [exact Hpool4|].
    exists (set_once true m5). split; [by eapply lookup_updated|].
    intros _. split; [simpl; lia|]. by exists r0, r1.
  - exists (set_once true m5). split; [by eapply lookup_updated|done].
Qed.

(** [Lock()] returns a token at step 0 whose start index is computed
    from the state word it loaded, and holds the gate. *)
Lemma Lock_returns lk w :
  inv lk w ->
  returns (ready lk)
    (fun t w' =>
       held lk w' /\
       exists m, mutexes w' !! lk = Some m /\
         t = {| nonzero := true;
                startIdx := byte (rem (int32 (Z.shiftr (state m) 1 + 1)) 2);
                incrs := 0; l := Some lk |})
    (Lock lk w).
Proof.
  intros Hinv. destruct (once_init lk w Hinv) as (w1 & E1 & Hrdy).
  unfold Lock. rewrite bind_eq, E1. cbn [bind_res]. rewrite bind_eq.
  assert (forall w2 m, ready lk w2 -> mutexes w2 !! lk = Some m ->
            let w3 := with_mutexes (<[lk := set_wmu true m]>) w2 in
            held lk w3 /\ mutexes w3 !! lk = Some (set_wmu true m)) as Hheld.
  { intros w2 m Hr2 Hm2 w3.
    destruct (ready_mutex lk w2 Hr2) as (m' & r0 & r1 & Hm' & Ho & Hst & HE & H0 & H1).
    assert (m' = m) as -> by congruence.
    assert (mutexes w3 !! lk = Some (set_wmu true m)) as Hm3
      by (by eapply lookup_updated).
    split; [|done]. split.
    - destruct Hr2 as [Hi2 _]. eapply inv_update; [done|done|].
      intros _. split; [done|]. by exists r0, r1.
    - by exists (set_wmu true m). }
  assert (forall w3 m, held lk w3 -> mutexes w3 !! lk = Some m ->
            returns (ready lk)
              (fun t w' => held lk w' /\ exists m, mutexes w' !! lk = Some m /\
                 t = {| nonzero := true;
                        startIdx := byte (rem (int32 (Z.shiftr (state m) 1 + 1)) 2);
                        incrs := 0; l := Some lk |})
              (bind_res (Ret tt w3) (fun _ =>
                 st <- atomic_LoadState lk ;;
                 ret {| nonzero := true;
                        startIdx := byte (rem (int32 (Z.shiftr st 1 + 1)) 2);
                        incrs := 0; l := Some lk |}))) as Hrest.
  { intros w3 m Hh Hm3. cbn [bind_res].
    rewrite bind_eq, (atomic_LoadState_eq lk w3 m Hm3). cbn [bind_res].
    apply returns_now. split; [done|]. by exists m. }
  destruct (ready_mutex lk w1 Hrdy) as (m & r0 & r1 & Hm & Ho & Hst & HE & H0 & H1).
  unfold wmu_Lock. rewrite Hm. destruct (wmu m) eqn:Hw.
  - cbn [bind_res]. apply returns_later. intros w2 Hr2.
    destruct (ready_mutex lk w2 Hr2) as (m2 & _ & _ & Hm2 & _).
    rewrite (update_mutex_eq lk _ w2 m2 Hm2).
    destruct (Hheld w2 m2 Hr2 Hm2) as [Hh Hm3]. by eapply Hrest.
  - destruct (Hheld w1 m Hrdy Hm) as [Hh Hm3]. by eapply Hrest.
Qed.

Lemma held_update lk w m m' :
  held lk w -> mutexes w !! lk = Some m ->
  once m' = true -> wmu m' = true -> 0 <= state m' <= 3 ->
  refCounts m' = refCounts m ->
  held lk (with_mutexes (<[lk := m']>) w).
Proof.
  intros Hh Hm Ho Hw Hst HE.
  destruct (ready_mutex lk w (held_ready lk w Hh))
    as (m0 & r0 & r1 & Hm0 & _ & _ & HE0 & H0 & H1).
  assert (m0 = m) as -> by congruence.
  split.
  - destruct Hh as [Hi _]. eapply inv_update; [done|done|].
    intros _. split; [done|]. exists r0, r1. by rewrite HE.
  - exists m'. split; [by eapply lookup_updated|done].
Qed.

(** [wait] on a live refCount never fails: it returns, or it parks on
    the signal channel and returns when woken. *)
Lemma wait_returns lk r w :
  held lk w -> live_rc w r ->
  returns (held lk) (fun _ w' => held lk w') (wait r w).
Proof.
  intros Hh Hl. pose proof Hl as (Hr & Ha & _ & c & Hc & Hch).
  destruct (wait_spec r w Hr Ha) as (w1 & Eq & Hs & Hcs & _).
  rewrite Eq. destruct (_ && _).
  - unfold chan_recv. rewrite Hc, Hcs. destruct Hch as [n ->].
    destruct (0 <? n).
    + apply returns_now. eapply held_shape; [|exact Hh].
      eapply same_shape_trans; [exact Hs|].
      eapply same_shape_trans; [apply same_shape_chans|apply same_shape_log].
    + apply returns_later. intros w' Hw'. by apply returns_now.
  - apply returns_now. by eapply held_shape.
Qed.

Lemma nonVersionIndex_cases st :
  let i := rem (int32 (Z.land st 1 + 1)) 2 in i = 0 \/ i = 1.
Proof.
  intros i. unfold i.
  assert (Z.land st 1 = st mod 2) as -> by (apply (Z.land_ones st 1); lia).
  pose proof (Z.mod_pos_bound st 2).
  assert (st mod 2 = 0 \/ st mod 2 = 1) as [-> | ->] by lia; [right|left]; reflexivity.
Qed.

Lemma refCounts_at_set m i r0 r1 r :
  i = 0 \/ i = 1 ->
  refCounts m = (Some r0, Some r1) -> refCounts_at m i = Some r ->
  refCounts (set_refCounts_at i (Some r) m) = refCounts m.
Proof.
  intros [-> | ->] HE; unfold refCounts_at, set_refCounts_at; simpl;
    rewrite HE; simpl; by intros ->.
Qed.

Lemma refCounts_at_live w m i r0 r1 :
  i = 0 \/ i = 1 ->
  refCounts m = (Some r0, Some r1) -> live_rc w r0 -> live_rc w r1 ->
  exists r, refCounts_at m i = Some r /\ live_rc w r.
Proof.
  intros [-> | ->] HE H0 H1; unfold refCounts_at; simpl; rewrite HE; simpl; eauto.
Qed.

(** A drain: wait for the other refCount, then reset it in place. *)
Lemma waitForNonVersionIndex_returns lk st w :
  held lk w ->
  returns (held lk) (fun _ w' => held lk w') (waitForNonVersionIndex lk st w).
Proof.
  intros Hh. unfold waitForNonVersionIndex.
  pose proof (nonVersionIndex_cases st) as Hi. simpl in Hi.
  set (i := rem (int32 (Z.land st 1 + 1)) 2) in *.
  destruct (ready_mutex lk w (held_ready lk w Hh))
    as (m & r0 & r1 & Hm & Ho & Hst & HE & H0 & H1).
  rewrite bind_eq, (load_mutex_eq lk w m Hm). cbn [bind_res].
  destruct (refCounts_at_live w m i r0 r1 Hi HE H0 H1) as (r & Hr & Hl).
  rewrite Hr, bind_eq.
  eapply returns_bind; [by eapply wait_returns|].
  intros u1 w1 Hh1. cbn beta in Hh1 |- *.
  destruct (ready_mutex lk w1 (held_ready lk w1 Hh1))
    as (m1 & q0 & q1 & Hm1 & Ho1 & Hst1 & HE1 & Hq0 & Hq1).
  rewrite bind_eq, (load_mutex_eq lk w1 m1 Hm1). cbn [bind_res].
  destruct (refCounts_at_live w1 m1 i q0 q1 Hi HE1 Hq0 Hq1) as (r' & Hr' & Hl').
  rewrite Hr'.
  destruct (allocate_reuse r' w1 Hl') as (w2 & Ea & Hs2 & _).
  rewrite bind_eq, Ea. cbn [bind_res].
  assert (held lk w2) as Hh2 by (by eapply held_shape).
  assert (mutexes w2 !! lk = Some m1) as Hm2.
  { destruct Hs2 as (-> & _). done. }
  rewrite (update_mutex_eq lk _ w2 m1 Hm2). apply returns_now.
  eapply (held_update lk w2 m1); [exact Hh2|exact Hm2|exact Ho1| |exact Hst1|].
  - exact (held_wmu lk w2 m1 Hh2 Hm2).
  - exact (refCounts_at_set m1 i q0 q1 r' Hi HE1 Hr').
Qed.

Lemma toggle_leftRight_range st :
  0 <= st <= 3 ->
  0 <= Z.lor (int32 (Z.shiftl (rem (int32 (Z.shiftr st 1 + 1)) 2) 1)) (Z.land st 1) <= 3.
Proof.
  intros H. assert (st = 0 \/ st = 1 \/ st = 2 \/ st = 3) as [->|[->|[->| ->]]] by lia;
    by vm_compute.
Qed.

Lemma toggle_versionIndex_range st :
  0 <= st <= 3 ->
  0 <= Z.lor (Z.land st 2) (rem (int32 (Z.land st 1 + 1)) 2) <= 3.
Proof.
  intros H. assert (st = 0 \/ st = 1 \/ st = 2 \/ st = 3) as [->|[->|[->| ->]]] by lia;
    by vm_compute.
Qed.

Lemma held_store lk w v :
  held lk w -> 0 <= v <= 3 ->
  exists w', atomic_StoreState lk v w = Ret tt w' /\ held lk w'.
Proof.
  intros Hh Hv.
  destruct (ready_mutex lk w (held_ready lk w Hh)) as (m & _ & _ & Hm & Ho & _).
  unfold atomic_StoreState. rewrite (update_mutex_eq lk _ w m Hm).
  eexists. split; [done|].
  eapply (held_update lk w m);
    [exact Hh|exact Hm|exact Ho|exact (held_wmu lk w m Hh Hm)|exact Hv|reflexivity].
Qed.

Lemma Next_step0 t w :
  nonzero t = true -> incrs t = 0 -> Next t w = Ret (true, incr t) w.
Proof. intros Hn Hi. unfold Next. by rewrite Hn, Hi. Qed.

(** The second call: flip, drain, flip, drain. *)
Lemma Next_step1 lk t w :
  nonzero t = true -> incrs t = 1 -> l t = Some lk -> held lk w ->
  returns (held lk) (fun bt w' => bt = (true, incr t) /\ held lk w') (Next t w).
Proof.
  intros Hn Hi Hl Hh. unfold Next. rewrite Hn, Hi, Hl.
  change (negb true) with false. change (1 >=? 3) with false.
  change (1 =? 0) with false. change (1 =? 2) with false. cbv iota.
  destruct (ready_mutex lk w (held_ready lk w Hh)) as (m & _ & _ & Hm & _ & Hst & _).
  rewrite bind_eq, (atomic_LoadState_eq lk w m Hm). cbn [bind_res].
  pose proof (toggle_leftRight_range (state m) Hst) as Hst1.
  set (st1 := Z.lor _ _) in *.
  destruct (held_store lk w st1 Hh Hst1) as (w1 & E1 & Hh1).
  rewrite bind_eq, E1. cbn [bind_res]. rewrite bind_eq.
  eapply returns_bind; [by apply waitForNonVersionIndex_returns|].
  intros u2 w2 Hh2. cbn beta in Hh2 |- *.
  pose proof (toggle_versionIndex_range st1 Hst1) as Hst2.
  set (st2 := Z.lor (Z.land st1 2) (rem (int32 (Z.land st1 1 + 1)) 2)) in *.
  destruct (held_store lk w2 st2 Hh2 Hst2) as (w3 & E3 & Hh3).
  rewrite bind_eq, E3. cbn [bind_res]. rewrite bind_eq.
  eapply returns_bind; [by apply waitForNonVersionIndex_returns|].
  intros u4 w4 Hh4. cbn beta in Hh4 |- *. apply returns_now. split; [|done].
  unfold ret. unfold incr at 1. simpl. by rewrite Hi.
Qed.

(** The third call releases the gate. *)
Lemma Next_step2 lk t w :
  nonzero t = true -> incrs t = 2 -> l t = Some lk -> held lk w ->
  exists w', Next t w = Ret (false, incr t) w' /\ ready lk w'.
Proof.
  intros Hn Hi Hl Hh. unfold Next. rewrite Hn, Hi, Hl.
  change (negb true) with false. change (2 >=? 3) with false.
  change (2 =? 0) with false. change (2 =? 2) with true. cbv iota.
  destruct (ready_mutex lk w (held_ready lk w Hh))
    as (m & r0 & r1 & Hm & Ho & Hst & HE & H0 & H1).
  rewrite bind_eq. unfold wmu_Unlock. rewrite Hm, (held_wmu lk w m Hh Hm).
  cbn [bind_res]. eexists. split; [done|]. split.
  - destruct Hh as [Hi' _]. eapply inv_update; [done|done|].
    intros _. split; [done|]. by exists r0, r1.
  - eexists. split; [by eapply lookup_updated|done].
Qed.

Lemma Next_step3 t w :
  nonzero t = true -> 3 <= incrs t ->
  Next t w = Panic "Cannot call Next() again after it has returned false." w.
Proof.
  intros Hn Hi. unfold Next. rewrite Hn. simpl.
  destruct (Z.geb_spec (incrs t) 3); [done|lia].
Qed.

Lemma Next_zero t w :
  nonzero t = false -> Next t w = Panic "Use of a zero LockToken is invalid." w.
Proof. intros Hn. unfold Next. by rewrite Hn. Qed.

End MutexSteps.

(** ** Drains with no reader registered *)

Section Quiet.

Context {P : Platform}.

Lemma events_of_app {A} w (r : res A) evs :
  trace (world_of r) = trace w ++ evs -> events_of w r = evs.
Proof. intros H. unfold events_of. rewrite H. apply drop_app_length. Qed.

Lemma quiet_not_armed w r : quiet w r -> armed_count w r = 0.
Proof.
  intros Hq. unfold armed_count.
  assert (List.filter (armed w r) (shards r) = []) as ->; [|done].
  induction (shards r) as [|p ps IH]; [done|]. cbn [List.filter].
  unfold armed at 1. rewrite (shard_val_eq w r p 0 (Hq p)). exact IH.
Qed.

Lemma apart_not_own r1 r2 q :
  rc_ok r1 -> rc_ok r2 -> apart r1 r2 ->
  ~ (counters r2 = counters r1 /\ own_slot r1 (idxForP r2 q)).
Proof.
  intros H1 H2 [Hc|Ho] [Ec [p Ep]]; [congruence|].
  by apply (idxForP_apart r2 r1 q p H2 H1).
Qed.

(** With no reader registered, [wait] returns at once. *)
Lemma wait_quiet r w :
  rc_ok r -> arr_ok w r -> quiet w r ->
  exists w', wait r w = Ret tt w' /\ same_shape w w' /\ chans w' = chans w /\
    (forall a' k, ~ (a' = counters r /\ own_slot r k) -> slot w' a' k = slot w a' k).
Proof.
  intros Hr Ha Hq. destruct (wait_spec r w Hr Ha) as (w' & Eq & Hs & Hc & _ & _ & _ & Hfr).
  rewrite (quiet_not_armed w r Hq) in Eq. exists w'. done.
Qed.

Lemma quiet_frame w w' r r' :
  rc_ok r -> rc_ok r' -> apart r' r ->
  (forall a' k, ~ (a' = counters r' /\ own_slot r' k) -> slot w' a' k = slot w a' k) ->
  quiet w r -> quiet w' r.
Proof.
  intros Hr Hr' Hap Hfr Hq p. rewrite Hfr; [apply Hq|].
  by apply apart_not_own.
Qed.

(** A drain with no reader registered on either refCount returns at once
    and leaves both quiet. *)
Lemma waitForNonVersionIndex_quiet lk st w m r0 r1 :
  held lk w -> mutexes w !! lk = Some m -> refCounts m = (Some r0, Some r1) ->
  apart r0 r1 -> quiet w r0 -> quiet w r1 ->
  exists w', waitForNonVersionIndex lk st w = Ret tt w' /\ held lk w' /\
    (exists m', mutexes w' !! lk = Some m' /\ refCounts m' = (Some r0, Some r1) /\
                state m' = state m) /\
    quiet w' r0 /\ quiet w' r1.
Proof.
  intros Hh Hm HE Hap Hq0 Hq1. unfold waitForNonVersionIndex.
  pose proof (nonVersionIndex_cases st) as Hi. simpl in Hi.
  set (i := rem (int32 (Z.land st 1 + 1)) 2) in *.
  destruct (ready_mutex lk w (held_ready lk w Hh))
    as (m0 & q0 & q1 & Hm0 & Ho & Hst & HE0 & H0 & H1).
  assert (m0 = m) as -> by congruence.
  assert (q0 = r0 /\ q1 = r1) as [-> ->] by (split; congruence).
  rewrite bind_eq, (load_mutex_eq lk w m Hm). cbn [bind_res].
  assert (apart r1 r0) as Hap'.
  { destruct Hap; [left|right]; congruence. }
  assert (exists r r', refCounts_at m i = Some r /\ live_rc w r /\ live_rc w r' /\
            apart r r' /\ quiet w r /\ quiet w r' /\
            ((r = r0 /\ r' = r1) \/ (r = r1 /\ r' = r0)))
    as (r & r' & Hr & Hl & Hl' & Hrr & Hq & Hq' & Hwhich).
  { destruct Hi as [Ei|Ei]; rewrite Ei; unfold refCounts_at; simpl; rewrite HE; simpl.
    - exists r0, r1. split; [done|]. split; [exact H0|]. split; [exact H1|].
      split; [exact Hap|]. split; [exact Hq0|]. split; [exact Hq1|]. by left.
    - exists r1, r0. split; [done|]. split; [exact H1|]. split; [exact H0|].
      split; [exact Hap'|]. split; [exact Hq1|]. split; [exact Hq0|]. by right. }
  rewrite Hr, bind_eq.
  pose proof Hl as (Hrc & Harr & _). pose proof Hl' as (Hrc' & _).
  destruct (wait_quiet r w Hrc Harr Hq) as (w1 & E1 & Hs1 & Hc1 & Hfr1).
  rewrite E1. cbn [bind_res].
  assert (held lk w1) as Hh1 by (by eapply held_shape).
  assert (mutexes w1 !! lk = Some m) as Hm1 by (destruct Hs1 as (-> & _); done).
  rewrite bind_eq, (load_mutex_eq lk w1 m Hm1). cbn [bind_res]. rewrite Hr.
  destruct (allocate_reuse r w1 (live_rc_shape w w1 r Hs1 Hl))
    as (w2 & E2 & Hs2 & Hc2 & Hq2 & Hfr2).
  rewrite bind_eq, E2. cbn [bind_res].
  assert (held lk w2) as Hh2 by (by eapply held_shape).
  assert (mutexes w2 !! lk = Some m) as Hm2 by (destruct Hs2 as (-> & _); done).
  rewrite (update_mutex_eq lk _ w2 m Hm2).
  assert (refCounts (set_refCounts_at i (Some r) m) = refCounts m) as HE2
    by (by eapply refCounts_at_set).
  eexists. split; [done|]. split.
  { eapply (held_update lk w2 m);
      [exact Hh2|exact Hm2|exact Ho|exact (held_wmu lk w2 m Hh2 Hm2)|exact Hst|exact HE2]. }
  split.
  { eexists. split; [by eapply lookup_updated|]. split; [by rewrite HE2|done]. }
  assert (quiet w2 r') as Hq2'.
  { eapply (quiet_frame w1 w2 r' r); try done.
    eapply (quiet_frame w w1 r' r); done. }
  destruct Hwhich as [[-> ->]|[-> ->]]; split; done.
Qed.

(** The second call with no reader registered: it returns true at once. *)
Lemma Next_step1_quiet lk t w m r0 r1 :
  nonzero t = true -> incrs t = 1 -> l t = Some lk -> held lk w ->
  mutexes w !! lk = Some m -> refCounts m = (Some r0, Some r1) ->
  apart r0 r1 -> quiet w r0 -> quiet w r1 ->
  exists w', Next t w = Ret (true, incr t) w' /\ held lk w' /\
    (exists m', mutexes w' !! lk = Some m' /\ refCounts m' = (Some r0, Some r1) /\
                state m' = 3 - state m) /\
    quiet w' r0 /\ quiet w' r1.
Proof.
  intros Hn Hi Hl Hh Hm HE Hap Hq0 Hq1. unfold Next. rewrite Hn, Hi, Hl.
  change (negb true) with false. change (1 >=? 3) with false.
  change (1 =? 0) with false. change (1 =? 2) with false. cbv iota.
  destruct (ready_mutex lk w (held_ready lk w Hh)) as (m0 & _ & _ & Hm0 & _ & Hst & _).
  assert (m0 = m) as -> by congruence.
  rewrite bind_eq, (atomic_LoadState_eq lk w m Hm). cbn [bind_res].
  pose proof (toggle_leftRight_range (state m) Hst) as Hst1.
  set (st1 := Z.lor _ _) in *.
  assert (forall w v m, held lk w -> mutexes w !! lk = Some m -> 0 <= v <= 3 ->
            refCounts m = (Some r0, Some r1) -> quiet w r0 -> quiet w r1 ->
            exists w', atomic_StoreState lk v w = Ret tt w' /\ held lk w' /\
              mutexes w' !! lk = Some (set_state v m) /\ quiet w' r0 /\ quiet w' r1)
    as Hstore.
  { intros wa v ma Hha Hma Hv HEa Ha0 Ha1.
    unfold atomic_StoreState. rewrite (update_mutex_eq lk _ wa ma Hma).
    eexists. split; [done|]. split.
    - destruct (ready_mutex lk wa (held_ready lk wa Hha)) as (mb & _ & _ & Hmb & Hob & _).
      assert (mb = ma) as -> by congruence.
      eapply (held_update lk wa ma);
        [exact Hha|exact Hma|exact Hob|exact (held_wmu lk wa ma Hha Hma)|exact Hv|reflexivity].
    - split; [by eapply lookup_updated|]. split; done. }
  destruct (Hstore w st1 m Hh Hm Hst1 HE Hq0 Hq1) as (w1 & E1 & Hh1 & Hm1 & Hq01 & Hq11).
  rewrite bind_eq, E1. cbn [bind_res]. rewrite bind_eq.
  destruct (waitForNonVersionIndex_quiet lk st1 w1 _ r0 r1 Hh1 Hm1 HE Hap Hq01 Hq11)
    as (w2 & E2 & Hh2 & (m2 & Hm2 & HE2 & _) & Hq02 & Hq12).
  rewrite E2. cbn [bind_res].
  pose proof (toggle_versionIndex_range st1 Hst1) as Hst2.
  set (st2 := Z.lor (Z.land st1 2) (rem (int32 (Z.land st1 1 + 1)) 2)) in *.
  destruct (Hstore w2 st2 m2 Hh2 Hm2 Hst2 HE2 Hq02 Hq12)
    as (w3 & E3 & Hh3 & Hm3 & Hq03 & Hq13).
  rewrite bind_eq, E3. cbn [bind_res]. rewrite bind_eq.
  destruct (waitForNonVersionIndex_quiet lk st2 w3 _ r0 r1 Hh3 Hm3 HE2 Hap Hq03 Hq13)
    as (w4 & E4 & Hh4 & (m4 & Hm4 & HE4 & Est4) & Hq04 & Hq14).
  rewrite E4. cbn [bind_res]. exists w4. split.
  { unfold ret. unfold incr at 1. simpl. by rewrite Hi. }
  split; [done|]. split; [|done].
  exists m4. split; [done|]. split; [done|].
  rewrite Est4. change (state (set_state st2 m2)) with st2.
  unfold st2, st1.
  assert (state m = 0 \/ state m = 1 \/ state m = 2 \/ state m = 3)
    as [->|[->|[->| ->]]] by lia; reflexivity.
Qed.

End Quiet.

(** * The claims *)

Lemma stub_pbits : @platform_pbits stub = 8.
Proof. reflexivity. Qed.

Lemma stub_platform_ok : @platform_ok stub.
Proof. unfold platform_ok. rewrite stub_pbits. simpl. lia. Qed.

Lemma inv_freshWorld : @inv stub 0%nat freshWorld.
Proof.
  split; [apply stub_platform_ok|]. split; [constructor|].
  exists zeroLRMutex. split; [done|]. intros [=].
Qed.

Section Writer.

Context {P : Platform}.

Lemma startIdx_opposite st :
  0 <= st <= 3 ->
  byte (rem (int32 (Z.shiftr st 1 + 1)) 2) = 1 - leftRight st.
Proof.
  intros H. assert (st = 0 \/ st = 1 \/ st = 2 \/ st = 3) as [->|[->|[->| ->]]] by lia;
    reflexivity.
Qed.

Lemma leftRight_bit st : 0 <= st <= 3 -> leftRight st = 0 \/ leftRight st = 1.
Proof.
  intros H. assert (st = 0 \/ st = 1 \/ st = 2 \/ st = 3) as [->|[->|[->| ->]]] by lia;
    by vm_compute; auto.
Qed.

Lemma Idx_at_step t n w :
  nonzero t = true -> incrs t = n ->
  LockToken_Idx t w =
    if n =? 0 then Panic "Cannot call Idx() before calling Next()." w
    else if n >? 2
    then Panic "Cannot call Idx() again after Next() has returned false." w
    else Ret (rem (byte (byte (startIdx t + n) - 1)) 2) w.
Proof.
  intros Hn Hi. unfold LockToken_Idx. rewrite Hn, Hi.
  change (negb true) with false. cbv iota.
  destruct (n =? 0); [done|]. by destruct (n >? 2).
Qed.

(** C1. For every write token returned by Lock(): the first call of
    Next() returns true, the second returns true (after its two drains,
    possibly parked in between and resumed; at once when no reader is
    registered), the third returns false, and a fourth panics; Next() on a
    zero-value token panics. *)
Theorem Next_true_true_false_then_panic lk w :
  inv lk w ->
  returns (ready lk)
    (fun t w0 =>
       held lk w0 /\
       Next t w0 = Ret (true, incr t) w0 /\
       (forall w1, held lk w1 ->
          returns (held lk)
            (fun bt w2 => bt = (true, incr (incr t)) /\ held lk w2)
            (Next (incr t) w1)) /\
       (forall w1 m r0 r1,
          held lk w1 -> mutexes w1 !! lk = Some m ->
          refCounts m = (Some r0, Some r1) -> apart r0 r1 ->
          quiet w1 r0 -> quiet w1 r1 ->
          exists w2, Next (incr t) w1 = Ret (true, incr (incr t)) w2 /\ held lk w2) /\
       (forall w3, held lk w3 ->
          exists w4, Next (incr (incr t)) w3 = Ret (false, incr (incr (incr t))) w4) /\
       (forall w5, Next (incr (incr (incr t))) w5
                   = Panic "Cannot call Next() again after it has returned false." w5))
    (Lock lk w)
  /\ (forall t w', nonzero t = false ->
        Next t w' = Panic "Use of a zero LockToken is invalid." w').
Proof.
  intros Hinv. split; [|intros t w' Hz; by apply Next_zero].
  eapply returns_weaken; [by apply Lock_returns|].
  intros t0 w0 (Hh & m & Hm & ->). cbn beta.
  set (t := {| nonzero := true; startIdx := _; incrs := 0; l := Some lk |}).
  split; [done|]. split; [by apply Next_step0|]. split.
  { intros w1 Hh1. by apply (Next_step1 lk (incr t)). }
  split.
  { intros w1 m1 r0 r1 Hh1 Hm1 HE Hap Hq0 Hq1.
    destruct (Next_step1_quiet lk (incr t) w1 m1 r0 r1) as (w2 & E & Hh2 & _);
      try done.
    by exists w2. }
  split.
  { intros w3 Hh3. destruct (Next_step2 lk (incr (incr t)) w3) as (w4 & E & _);
      try done.
    by exists w4. }
  intros w5. by apply Next_step3.
Qed.

(** C4. For every write token issued by Lock(): its start index is the
    opposite of the leftRight bit of the state word Lock() read; Idx()
    panics before the first Next(), returns the start index at step 1, the
    other index at step 2, and panics once Next() has returned false. *)
Theorem Idx_follows_the_steps lk w :
  inv lk w ->
  returns (ready lk)
    (fun t w0 =>
       (exists m, mutexes w0 !! lk = Some m /\ startIdx t = 1 - leftRight (state m)) /\
       (forall w', LockToken_Idx t w'
                   = Panic "Cannot call Idx() before calling Next()." w') /\
       Next t w0 = Ret (true, incr t) w0 /\
       (forall w', LockToken_Idx (incr t) w' = Ret (startIdx t) w') /\
       (forall w1, held lk w1 ->
          returns (held lk)
            (fun bt _ =>
               fst bt = true /\
               forall w', LockToken_Idx (snd bt) w' = Ret (1 - startIdx t) w')
            (Next (incr t) w1)) /\
       (forall w3, held lk w3 ->
          exists t3 w4,
            Next (incr (incr t)) w3 = Ret (false, t3) w4 /\
            forall w', LockToken_Idx t3 w'
                       = Panic "Cannot call Idx() again after Next() has returned false." w'))
    (Lock lk w).
Proof.
  intros Hinv. eapply returns_weaken; [by apply Lock_returns|].
  intros t w0 (Hh & m & Hm & ->). cbn beta.
  destruct (ready_mutex lk w0 (held_ready lk w0 Hh)) as (m0 & _ & _ & Hm0 & _ & Hst & _).
  assert (m0 = m) as -> by congruence.
  pose proof (startIdx_opposite (state m) Hst) as Es.
  pose proof (leftRight_bit (state m) Hst) as Hlr.
  set (t := {| nonzero := true; startIdx := _; incrs := 0; l := Some lk |}).
  assert (startIdx t = 1 - leftRight (state m)) as Est by exact Es.
  assert (startIdx t = 0 \/ startIdx t = 1) as Hs01 by lia.
  assert (forall w', LockToken_Idx (incr t) w' = Ret (startIdx t) w') as Hidx1.
  { intros w'. rewrite (Idx_at_step (incr t) 1 w' eq_refl eq_refl).
    change (startIdx (incr t)) with (startIdx t).
    destruct Hs01 as [E|E]; rewrite E; reflexivity. }
  assert (forall w', LockToken_Idx (incr (incr t)) w' = Ret (1 - startIdx t) w') as Hidx2.
  { intros w'. rewrite (Idx_at_step (incr (incr t)) 2 w' eq_refl eq_refl).
    change (startIdx (incr (incr t))) with (startIdx t).
    destruct Hs01 as [E|E]; rewrite E; reflexivity. }
  split; [by exists m|]. split.
  { intros w'. by rewrite (Idx_at_step t 0 w' eq_refl eq_refl). }
  split; [by apply Next_step0|]. split; [exact Hidx1|]. split.
  { intros w1 Hh1. eapply returns_weaken; [by apply (Next_step1 lk (incr t))|].
    intros bt w2 [-> _]. split; [done|exact Hidx2]. }
  intros w3 Hh3. destruct (Next_step2 lk (incr (incr t)) w3) as (w4 & E & _); try done.
  exists (incr (incr (incr t))), w4. split; [done|]. intros w'.
  by rewrite (Idx_at_step (incr (incr (incr t))) 3 w' eq_refl eq_refl).
Qed.

End Writer.

(** The two statements above at a zero-value mutex in an otherwise empty
    world, on the source's platform. *)
Lemma Next_true_true_false_then_panic_witness :
  @inv stub 0%nat freshWorld /\
  returns (@ready stub 0%nat)
    (fun t w0 => @Next stub t w0 = Ret (true, incr t) w0)
    (@Lock stub 0%nat freshWorld).
Proof.
  split; [exact inv_freshWorld|].
  eapply returns_weaken;
    [exact (proj1 (@Next_true_true_false_then_panic stub 0%nat freshWorld inv_freshWorld))|].
  intros t w0 (_ & H & _). exact H.
Defined.

Lemma Idx_follows_the_steps_witness :
  @inv stub 0%nat freshWorld /\
  returns (@ready stub 0%nat)
    (fun t w0 => forall w', LockToken_Idx (incr t) w' = Ret (startIdx t) w')
    (@Lock stub 0%nat freshWorld).
Proof.
  split; [exact inv_freshWorld|].
  eapply returns_weaken;
    [exact (@Idx_follows_the_steps stub 0%nat freshWorld inv_freshWorld)|].
  intros t w0 (_ & _ & _ & H & _). exact H.
Defined.

Section Counter.

Context {P : Platform}.

Lemma world_of_chan_recv c w b :
  chans w !! c = Some b ->
  trace (world_of (chan_recv (Some c) w)) = trace w ++ [EvRecv c] /\
  (forall a i, slot (world_of (chan_recv (Some c) w)) a i = slot w a i) /\
  ((exists w' k, chan_recv (Some c) w = Park (OnRecv c) w' k) <-> b <= 0) /\
  (0 < b -> exists w', chan_recv (Some c) w = Ret tt w').
Proof.
  intros Hb. unfold chan_recv. rewrite Hb. destruct (Z.ltb_spec 0 b) as [H|H]; simpl.
  - split; [done|]. split; [done|]. split.
    + split; [intros (w' & k & [=])|lia].
    + intros _. eauto.
  - split; [done|]. split; [done|]. split.
    + split; [done|]. intros _. eauto.
    + lia.
Qed.

Lemma world_of_chan_send c w b :
  chans w !! c = Some b ->
  trace (world_of (chan_send (Some c) w)) = trace w ++ [EvSend c] /\
  (forall a i, slot (world_of (chan_send (Some c) w)) a i = slot w a i) /\
  ((exists w' k, chan_send (Some c) w = Park (OnSend c) w' k) <-> 1 <= b) /\
  (b < 1 -> exists w', chan_send (Some c) w = Ret tt w').
Proof.
  intros Hb. unfold chan_send. rewrite Hb. destruct (Z.ltb_spec b 1) as [H|H]; simpl.
  - split; [done|]. split; [done|]. split.
    + split; [intros (w' & k & [=])|lia].
    + intros _. eauto.
  - split; [done|]. split; [done|]. split.
    + split; [done|]. intros _. eauto.
    + lia.
Qed.

(** C5. wait() decrements each shard from 1 to the maximum once; the
    armed shards are those whose decremented value is not negative; when
    none is armed it returns having touched neither the aggregation slot
    nor the channel; otherwise it adds the armed count to the aggregation
    slot, and it receives on the signal channel exactly when that slot is
    then positive (parking when the channel holds no signal). *)
Theorem wait_scans_arms_and_blocks r w c b :
  rc_ok r -> arr_ok w r -> waitch r = Some c -> chans w !! c = Some b ->
  let a := counters r in
  let n := armed_count w r in
  let agg := shard_val w r 0 in
  let blocks := (0 <? n) && (0 <? int32 (agg + n)) in
  events_of w (wait r w)
  = map (fun p => EvAdd a (idxForP r p) (-1)) (shards r)
    ++ (if 0 <? n then [EvAdd a (idxForP r 0) n] else [])
    ++ (if blocks then [EvRecv c] else [])
  /\ (forall p, 1 <= p <= maxPid r ->
        slot (world_of (wait r w)) a (idxForP r p)
        = Some (int32 (shard_val w r p - 1)))
  /\ slot (world_of (wait r w)) a (idxForP r 0)
     = Some (if 0 <? n then int32 (agg + n) else agg)
  /\ (n = 0 -> exists w', wait r w = Ret tt w')
  /\ ((exists w' k, wait r w = Park (OnRecv c) w' k) <-> blocks = true /\ b <= 0)
  /\ (blocks = false -> exists w', wait r w = Ret tt w').
Proof.
  intros Hr Ha Hc Hb a n agg blocks.
  destruct (wait_spec r w Hr Ha) as (w' & Eq & Hs & Hcs & Ht & Hdec & Hagg & Hfr).
  fold a in Ht, Hdec, Hagg. fold n in Eq, Ht, Hagg. fold agg in Eq, Hagg.
  fold blocks in Eq. rewrite Eq, Hc.
  assert (chans w' !! c = Some b) as Hb' by (by rewrite Hcs).
  destruct (world_of_chan_recv c w' b Hb') as (Tr & Sl & Pk & Rt).
  destruct blocks eqn:Eb.
  - split.
    { apply events_of_app. rewrite Tr, Ht. by rewrite <- !app_assoc. }
    split; [intros p Hp; rewrite Sl; by apply Hdec|].
    split; [by rewrite Sl|].
    split.
    { intros Hn. unfold blocks in Eb. rewrite Hn in Eb. done. }
    split; [|done].
    rewrite Pk. split; [done|]. by intros [_ ?].
  - split.
    { apply events_of_app. simpl. rewrite Ht. by rewrite app_nil_r. }
    split; [intros p Hp; by apply Hdec|]. split; [exact Hagg|].
    split; [eauto|]. split; [|eauto].
    split; [intros (? & ? & [=])|intros [[=] _]].
Qed.

Lemma sampleRc_ok : @rc_ok stub sampleRc.
Proof. unfold rc_ok. simpl. lia. Qed.

Lemma sampleRc2_ok : @rc_ok stub sampleRc2.
Proof. unfold rc_ok. simpl. lia. Qed.

End Counter.

Lemma sampleWorld_arr_ok : @arr_ok stub sampleWorld sampleRc.
Proof. exists 64%nat. split; [reflexivity|]. simpl. lia. Qed.

Lemma wait_scans_arms_and_blocks_witness :
  exists w' k, @wait stub sampleRc sampleWorld = Park (OnRecv 0%nat) w' k.
Proof.
  apply (proj1 (proj2 (proj2 (proj2 (proj2
    (@wait_scans_arms_and_blocks stub sampleRc sampleWorld 0%nat 0
       sampleRc_ok sampleWorld_arr_ok eq_refl eq_refl)))))).
  split; [reflexivity|]. lia.
Defined.

Section CounterClaims.

Context {P : Platform}.

(** C6. release(handle) decrements the slot the handle names; when the
    result is not negative it does nothing more; when it is negative it
    decrements the aggregation slot, and it sends on the signal channel
    exactly when that second decrement gives 0. *)
Theorem release_decrements_then_signals r i w v c b :
  let a := counters r in
  slot w a i = Some v -> is_Some (slot w a (idxForP r 0)) ->
  waitch r = Some c -> chans w !! c = Some b ->
  let v' := int32 (v - 1) in
  let g := if decide (i = idxForP r 0) then v' else shard_val w r 0 in
  let g' := int32 (g - 1) in
  events_of w (release r i w)
  = EvAdd a i (-1)
    :: (if 0 <=? v' then []
        else EvAdd a (idxForP r 0) (-1) :: (if g' =? 0 then [EvSend c] else []))
  /\ (0 <= v' -> release r i w = Ret tt (log (EvAdd a i (-1)) (set_slot a i v' w)))
  /\ (v' < 0 -> slot (world_of (release r i w)) a (idxForP r 0) = Some g')
  /\ (i <> idxForP r 0 -> slot (world_of (release r i w)) a i = Some v')
  /\ ((exists w' k, release r i w = Park (OnSend c) w' k)
      <-> v' < 0 /\ g' = 0 /\ 1 <= b)
  /\ (~ (v' < 0 /\ g' = 0 /\ 1 <= b) -> exists w', release r i w = Ret tt w').
Proof.
  intros a Hv Hagg Hc Hb v' g g'.
  set (w1 := log (EvAdd a i (-1)) (set_slot a i v' w)).
  pose proof (slot_nonneg _ _ _ _ Hv) as Hi0.
  assert (slot w1 a i = Some v') as Hi1.
  { unfold w1. rewrite slot_log. apply slot_set_slot_eq. by rewrite Hv. }
  assert (slot w1 a (idxForP r 0) = Some g) as Hg.
  { unfold g. destruct (decide (i = idxForP r 0)) as [<-|Hne]; [done|].
    unfold w1. rewrite slot_log, slot_set_slot_ne; [|done|by intros [_ ?]].
    destruct Hagg as [x Hx]. fold a in Hx. unfold shard_val. fold a. by rewrite Hx. }
  set (w2 := log (EvAdd a (idxForP r 0) (-1)) (set_slot a (idxForP r 0) g' w1)).
  pose proof (slot_nonneg _ _ _ _ Hg) as Hg0.
  assert (slot w2 a (idxForP r 0) = Some g') as Hg2.
  { unfold w2. rewrite slot_log. apply slot_set_slot_eq. by rewrite Hg. }
  assert (i <> idxForP r 0 -> slot w2 a i = Some v') as Hi2.
  { intros Hne. unfold w2. rewrite slot_log, slot_set_slot_ne; [done|done|].
    by intros [_ ?]. }
  rewrite (release_eq r i w v g Hv Hg). fold a. fold v'. fold w1. fold g'. fold w2.
  rewrite Hc.
  assert (chans w2 !! c = Some b) as Hb2 by exact Hb.
  destruct (world_of_chan_send c w2 b Hb2) as (Tr & Sl & Pk & Rt).
  destruct (Z.leb_spec 0 v') as [Hv'|Hv'].
  - split; [by apply events_of_app|]. split; [done|]. split; [lia|].
    split; [done|]. split.
    + split; [intros (? & ? & [=])|lia].
    + intros _. eauto.
  - destruct (Z.eqb_spec g' 0) as [Eg|Eg].
    + split.
      { apply events_of_app. rewrite Tr. unfold w2, w1. simpl.
        by rewrite <- !app_assoc. }
      split; [lia|]. split; [intros _; by rewrite Sl|].
      split; [intros Hne; rewrite Sl; by apply Hi2|]. split.
      * rewrite Pk. split; [done|]. by intros (_ & _ & ?).
      * intros Hn. apply Rt. lia.
    + split.
      { apply events_of_app. unfold w2, w1. simpl. by rewrite <- !app_assoc. }
      split; [lia|]. split; [done|]. split; [done|]. split.
      * split; [intros (? & ? & [=])|]. intros (_ & ? & _). done.
      * intros _. eauto.
Qed.

(** The two outcomes of [acquire] by the value of the slot. *)
Lemma acquire_overflow r w v :
  slot w (counters r) (idxForP r (int64 (getp + 1))) = Some v ->
  (v = MaxInt32 - 1 ->
     exists w', acquire r w
                = Panic "refCount does not support more than 2 billion acquires." w'
                /\ slot w' (counters r) (idxForP r (int64 (getp + 1))) = Some MaxInt32)
  /\ (is_int32 v -> v <> MaxInt32 - 1 ->
        exists w', acquire r w = Ret (idxForP r (int64 (getp + 1))) w').
Proof.
  intros Hv. rewrite (acquire_eq r w v Hv). split.
  - intros ->. eexists. split; [reflexivity|].
    rewrite slot_log. apply slot_set_slot_eq. by rewrite Hv.
  - intros Hr Hne. unfold is_int32 in Hr. unfold MaxInt32 in *.
    destruct (Z.eqb_spec (int32 (v + 1)) 2147483647) as [E|E]; [|eauto].
    destruct (decide (v = 2 ^ 31 - 1)) as [->|Hn]; [done|].
    rewrite int32_id in E by lia. lia.
Qed.

Lemma int16_fits z : int16 z = z <-> - 2 ^ 15 <= z < 2 ^ 15.
Proof.
  split.
  - intros <-. apply (wrap_range 16). lia.
  - intros H. apply wrap_id; [lia|exact H].
Qed.

Lemma RLock_eq lk w m r :
  mutexes w !! lk = Some m -> once m = true ->
  refCounts_at m (Z.land (state m) 1) = Some r ->
  RLock lk w =
    bind_res (acquire r w) (fun tok =>
      if negb (int16 tok =? tok)
      then panic "internal state error: refCount returned a token larger than 2^16."
      else
        state1 <- atomic_LoadState lk ;;
        ret {| idx := byte (Z.land (Z.shiftr state1 1) 1); tok := int16 tok;
               rc := Some r |}).
Proof.
  intros Hm Ho Hr. unfold RLock, once_Do.
  rewrite bind_eq, bind_eq, (load_mutex_eq lk w m Hm). cbn [bind_res].
  rewrite Ho. cbn [ret bind_res].
  rewrite bind_eq, (atomic_LoadState_eq lk w m Hm). cbn [bind_res].
  rewrite bind_eq, (load_mutex_eq lk w m Hm). cbn [bind_res].
  rewrite Hr. reflexivity.
Qed.

Lemma acquire_same_shape r w h w1 : acquire r w = Ret h w1 -> same_shape w w1.
Proof.
  intros E. pose proof (confined_acquire r w) as H. rewrite E in H.
  inversion H as [? ? ? T| | |]; subst. by destruct T.
Qed.

(** C8. acquire() panics when its increment brings the slot to the top
    of int32; RLock() panics when the handle acquire() returned does not
    fit an int16, and otherwise returns a token holding that handle. *)
Theorem counter_and_handle_overflow_panic :
  (forall r w,
     slot w (counters r) (idxForP r (int64 (getp + 1))) = Some (MaxInt32 - 1) ->
     exists w', acquire r w
                = Panic "refCount does not support more than 2 billion acquires." w')
  /\ (forall lk w m r h w1,
        mutexes w !! lk = Some m -> once m = true ->
        refCounts_at m (Z.land (state m) 1) = Some r ->
        acquire r w = Ret h w1 ->
        ~ (- 2 ^ 15 <= h < 2 ^ 15) ->
        RLock lk w
        = Panic "internal state error: refCount returned a token larger than 2^16." w1)
  /\ (forall lk w m r h w1,
        mutexes w !! lk = Some m -> once m = true ->
        refCounts_at m (Z.land (state m) 1) = Some r ->
        acquire r w = Ret h w1 ->
        - 2 ^ 15 <= h < 2 ^ 15 ->
        RLock lk w = Ret {| idx := leftRight (state m); tok := h; rc := Some r |} w1).
Proof.
  split.
  { intros r w Hv. destruct (acquire_overflow r w _ Hv) as [H _].
    destruct (H eq_refl) as (w' & E & _). by exists w'. }
  split.
  - intros lk w m r h w1 Hm Ho Hr Ha Hfit.
    rewrite (RLock_eq lk w m r Hm Ho Hr), Ha. cbn [bind_res].
    destruct (Z.eqb_spec (int16 h) h) as [E|E]; [|done].
    apply int16_fits in E. done.
  - intros lk w m r h w1 Hm Ho Hr Ha Hfit.
    pose proof (acquire_same_shape r w h w1 Ha) as (Hmm & _).
    rewrite (RLock_eq lk w m r Hm Ho Hr), Ha. cbn [bind_res].
    destruct (Z.eqb_spec (int16 h) h) as [E|E]; [|by apply int16_fits in Hfit].
    cbn [negb]. rewrite bind_eq.
    assert (mutexes w1 !! lk = Some m) as Hm1 by (by rewrite Hmm).
    rewrite (atomic_LoadState_eq lk w1 m Hm1). cbn [bind_res]. unfold ret.
    rewrite E. f_equal. f_equal. unfold leftRight, byte.
    assert (Z.land (Z.shiftr (state m) 1) 1 = Z.shiftr (state m) 1 mod 2) as ->
      by (apply (Z.land_ones _ 1); lia).
    pose proof (Z.mod_pos_bound (Z.shiftr (state m) 1) 2).
    apply Z.mod_small. lia.
Qed.

End CounterClaims.

Lemma ret_value {A} (x : res A) (a : A) :
  match x with Ret a' _ => a' = a | _ => False end -> x = Ret a (world_of x).
Proof. destruct x; try done. by intros ->. Qed.

Lemma release_decrements_then_signals_witness :
  @release stub sampleRc 17 sampleWorld
  = Ret tt (log (EvAdd 0 17 (-1)) (set_slot 0 17 (int32 (2 - 1)) sampleWorld)).
Proof.
  apply (proj1 (proj2
    (@release_decrements_then_signals stub sampleRc 17 sampleWorld 2 0%nat 0
       eq_refl (ex_intro _ 0 eq_refl) eq_refl eq_refl))).
  vm_compute. discriminate.
Defined.

Lemma counter_and_handle_overflow_panic_witness :
  (exists w', @acquire stub sampleRc fullWorld
              = Panic "refCount does not support more than 2 billion acquires." w')
  /\ @RLock widePlatform 0%nat wideWorld
     = Panic "internal state error: refCount returned a token larger than 2^16."
             (world_of (@acquire widePlatform wideRc wideWorld)).
Proof.
  destruct (@counter_and_handle_overflow_panic stub) as (A & _).
  destruct (@counter_and_handle_overflow_panic widePlatform) as (_ & B & _).
  split.
  - apply A. reflexivity.
  - eapply (B 0%nat wideWorld _ wideRc 33616); [reflexivity|reflexivity|reflexivity| |].
    + apply ret_value. vm_compute. reflexivity.
    + intros [_ H]. revert H. apply Z.le_ngt. vm_compute. discriminate.
Defined.

Section Sharing.

Context {P : Platform}.

Lemma confined_run_op r o w :
  confined (counters r) (own_slot r) w (run_op r o w).
Proof.
  destruct o as [|p| |]; simpl.
  - rewrite bind_eq. apply confined_bind; [apply confined_acquire|].
    intros x w'. apply confined_ret.
  - apply confined_release.
  - apply confined_wait.
  - apply confined_clear.
Qed.

(** C9. Two refCounts on one counters array with different offsets: every
    operation of the one (acquire, release of one of its handles, wait,
    clear) reads and writes only slots it names itself, none of which is a
    slot of the other, whose slots therefore keep their values. *)
Theorem sharing_instances_stay_apart r1 r2 o w :
  counters r1 = counters r2 -> rc_ok r1 -> rc_ok r2 -> offset r1 <> offset r2 ->
  confined (counters r1) (own_slot r1) w (run_op r1 o w)
  /\ (forall q, ~ own_slot r1 (idxForP r2 q))
  /\ (forall q, slot (world_of (run_op r1 o w)) (counters r2) (idxForP r2 q)
                = slot w (counters r2) (idxForP r2 q)).
Proof.
  intros Hc H1 H2 Ho.
  assert (forall q, ~ own_slot r1 (idxForP r2 q)) as Hno.
  { intros q [p E]. by apply (idxForP_apart r2 r1 q p H2 H1). }
  split; [apply confined_run_op|]. split; [exact Hno|].
  intros q. eapply confined_world_of; [apply confined_run_op|].
  intros [_ H]. by apply (Hno q).
Qed.

(** C10. On a refCount whose slots are all non-negative, acquire() followed
    by release() of the handle it returned leaves every counters array and
    every channel as it was; the release makes one atomic operation, the
    decrement of the handle's slot, and returns: no second decrement, no
    send.  The handle's slot is not the aggregation slot when the caller's
    shard is not shard 0. *)
Theorem acquire_then_release_restores r w h w1 :
  rc_ok r ->
  (forall p, exists v, slot w (counters r) (idxForP r p) = Some v /\ 0 <= v < 2 ^ 31) ->
  acquire r w = Ret h w1 ->
  exists w2,
    release r h w1 = Ret tt w2
    /\ arrays w2 = arrays w /\ chans w2 = chans w
    /\ events_of w1 (release r h w1) = [EvAdd (counters r) h (-1)]
    /\ (Z.land (int64 (getp + 1)) (maxPid r) <> 0 -> h <> idxForP r 0).
Proof.
  intros Hr Hall E.
  set (a := counters r) in *. set (i := idxForP r (int64 (getp + 1))) in *.
  destruct (Hall (int64 (getp + 1))) as (v & Hv & Hv0). fold i in Hv.
  rewrite (acquire_eq r w v Hv) in E. fold a i in E.
  destruct (int32 (v + 1) =? MaxInt32); [done|].
  injection E as <- <-.
  set (w1 := log (EvAdd a i 1) (set_slot a i (int32 (v + 1)) w)).
  pose proof (slot_nonneg _ _ _ _ Hv) as Hi0.
  assert (slot w1 a i = Some (int32 (v + 1))) as Hi1.
  { unfold w1. rewrite slot_log. apply slot_set_slot_eq. by rewrite Hv. }
  assert (int32 (int32 (v + 1) - 1) = v) as Eback.
  { apply int32_inc_dec. unfold is_int32. lia. }
  assert (is_Some (slot (log (EvAdd a i (-1))
                          (set_slot a i (int32 (int32 (v + 1) - 1)) w1))
                        a (idxForP r 0))) as [g Hg].
  { rewrite slot_log. destruct (decide (idxForP r 0 = i)) as [->|Hne].
    - rewrite slot_set_slot_eq; [done|by rewrite Hi1].
    - rewrite slot_set_slot_ne; [|done|by intros [_ ?]].
      unfold w1. rewrite slot_log, slot_set_slot_ne; [|done|by intros [_ ?]].
      destruct (Hall 0) as (x & Hx & _). by rewrite Hx. }
  rewrite (release_eq r i w1 _ g Hi1 Hg). fold a. rewrite Eback.
  destruct (Z.leb_spec 0 v) as [_|?]; [|lia].
  eexists. split; [reflexivity|]. split.
  { apply (set_slot_set_slot_id a i v (int32 (v + 1)) w Hv). }
  split; [reflexivity|]. split.
  { by apply events_of_app. }
  intros Hp Eq. apply Hp.
  pose proof Hr as (Hb & Hpb & Ho).
  rewrite (maxPid_ok r Hr).
  replace (2 ^ pbits r - 1) with (Z.ones (pbits r)) by (rewrite Z.ones_equiv; lia).
  rewrite Z.land_ones by lia.
  unfold i in Eq. rewrite !idxForP_ok in Eq by done.
  rewrite Z.mod_0_l in Eq by (pose proof (pow2_bounds _ Hpb); lia).
  pose proof (pow2_bounds _ Hb).
  pose proof (Z.mod_pos_bound (int64 (getp + 1)) (2 ^ pbits r)). nia.
Qed.

End Sharing.

Lemma sharing_instances_stay_apart_witness :
  slot (world_of (@run_op stub sampleRc OpWait sampleWorld)) 0%nat
       (@idxForP stub sampleRc2 1)
  = slot sampleWorld 0%nat (@idxForP stub sampleRc2 1).
Proof.
  apply (proj2 (proj2 (@sharing_instances_stay_apart stub sampleRc sampleRc2 OpWait
    sampleWorld eq_refl sampleRc_ok sampleRc2_ok ltac:(discriminate))) 1).
Defined.

Lemma sampleWorld_nonneg p :
  exists v, slot sampleWorld (counters sampleRc) (@idxForP stub sampleRc p) = Some v
            /\ 0 <= v < 2 ^ 31.
Proof.
  rewrite (@idxForP_ok stub sampleRc p sampleRc_ok).
  change (2 ^ pbits sampleRc) with 4. change (2 ^ @slotsPerCacheLineBits stub) with 16.
  change (offset sampleRc) with 1.
  pose proof (Z.mod_pos_bound p 4).
  assert (p mod 4 = 0 \/ p mod 4 = 1 \/ p mod 4 = 2 \/ p mod 4 = 3)
    as [->|[->|[->| ->]]] by lia; eexists; (split; [reflexivity|lia]).
Qed.

Lemma acquire_then_release_restores_witness :
  exists w2,
    @release stub sampleRc 17 (world_of (@acquire stub sampleRc sampleWorld)) = Ret tt w2
    /\ arrays w2 = arrays sampleWorld.
Proof.
  destruct (@acquire_then_release_restores stub sampleRc sampleWorld 17
              (world_of (@acquire stub sampleRc sampleWorld))
              sampleRc_ok sampleWorld_nonneg eq_refl)
    as (w2 & E & Ha & _).
  exists w2. split; [exact E|exact Ha].
Defined.

(** C2 (the code differs from the claim).  On the source's platform
    (gomaxprocs() = 4) a fresh refCount gets pbits = 8, the rounded
    power of two itself, where the number of bits that address 8 shards is
    3; the instance then has 2^8 shards and an array of 4096 slots. *)
Theorem allocateRefCount_pbits_is_the_rounded_value :
  match @allocateRefCount stub None emptyWorld with
  | Ret r w' =>
      roundNearestPowerOf2 (@gomaxprocs stub + 1) = 8
      /\ pbits r = 8 /\ Z.log2 8 = 3
      /\ maxPid r = 255
      /\ alen w' (counters r) = Some 4096%nat
  | _ => False
  end.
Proof. vm_compute. repeat split. Qed.

(** C3 (the code differs from the claim).  A reader that calls RUnlock()
    twice on its token: the second call is not refused; it releases again,
    taking the shard slot and then the aggregation slot to -1. *)
Theorem RUnlock_twice_is_performed_twice :
  match @RLock stub 0%nat freshWorld with
  | Ret t w1 =>
      match @RUnlock stub t w1 with
      | Ret _ w2 =>
          exists w3,
            @RUnlock stub t w2 = Ret tt w3
            /\ events_of w2 (@RUnlock stub t w2) = [EvAdd 0 16 (-1); EvAdd 0 0 (-1)]
            /\ slot w3 0 16 = Some (-1) /\ slot w3 0 0 = Some (-1)
      | _ => False
      end
  | _ => False
  end.
Proof. vm_compute. eexists. repeat split. Qed.

(** * Further properties of the code *)

Lemma bind_res_Ret {A B} (x : res A) (f : A -> M B) b w' :
  bind_res x f = Ret b w' -> exists a w1, x = Ret a w1 /\ f a w1 = Ret b w'.
Proof. destruct x; simpl; try done. eauto. Qed.

Section Further.

Context {P : Platform}.

(** X1. roundNearestPowerOf2 rounds up to a power of two: for v from 1
    to 2^32 the result is 2 to the ceiling of log2 v, so it is at least v
    and less than twice v. *)
Theorem roundNearestPowerOf2_least_power v :
  1 <= v <= 2 ^ 32 ->
  roundNearestPowerOf2 v = 2 ^ Z.log2_up v
  /\ v <= roundNearestPowerOf2 v
  /\ (1 < v -> roundNearestPowerOf2 v < 2 * v).
Proof.
  intros Hv. rewrite (roundNearestPowerOf2_eq v Hv).
  split; [done|]. destruct (decide (v = 1)) as [->|Hne].
  { split; [by vm_compute|lia]. }
  pose proof (Z.log2_up_spec v ltac:(lia)) as [Hlo Hhi].
  pose proof (Z.log2_up_pos v ltac:(lia)) as Hpos.
  split; [done|]. intros _.
  replace (Z.log2_up v) with (Z.succ (Z.pred (Z.log2_up v))) by lia.
  rewrite Z.pow_succ_r by lia. lia.
Qed.

Lemma fresh_pbits pb w r w' :
  (a <- make_counters (shl (shl 1 pb) slotsPerCacheLineBits) ;;
   let newRc := {| pbits := pb; counters := a; offset := 0; waitch := None |} in
   pool_Put (set_offset (int64 (offset newRc + 1)) newRc) ;;;
   c <- make_chan ;; ret (set_waitch (Some c) newRc)) w = Ret r w' ->
  pbits r = pb.
Proof.
  rewrite bind_eq. unfold make_counters.
  destruct (_ <? 0); [done|]. cbn [bind_res].
  intros E. apply bind_res_Ret in E as (? & w1 & _ & E).
  apply bind_res_Ret in E as (c & w2 & _ & E). by injection E as <- _.
Qed.

(** X2. Whichever path allocateRefCount takes (the instance to reuse, an
    entry of the pool, a fresh array), the instance it returns has
    pbits = uint(roundNearestPowerOf2(gomaxprocs() + 1)). *)
Theorem allocateRefCount_pbits reuse w r w' :
  allocateRefCount reuse w = Ret r w' ->
  pbits r = uint (roundNearestPowerOf2 (int64 (gomaxprocs + 1))).
Proof.
  unfold allocateRefCount. cbv zeta.
  set (pb := uint (roundNearestPowerOf2 (int64 (gomaxprocs + 1)))).
  assert (forall w0, (pooledRc <- pool_Get ;;
            match pooledRc with
            | Some pr =>
                if pbits pr =? pb then
                  (if offset pr <? int64 (shl 1 slotsPerCacheLineBits - 1)
                   then pool_Put (set_offset (int64 (offset pr + 1)) pr)
                   else ret tt) ;;;
                  c <- make_chan ;; ret (set_waitch (Some c) pr)
                else
                  a <- make_counters (shl (shl 1 pb) slotsPerCacheLineBits) ;;
                  let newRc := {| pbits := pb; counters := a; offset := 0;
                                  waitch := None |} in
                  pool_Put (set_offset (int64 (offset newRc + 1)) newRc) ;;;
                  c <- make_chan ;; ret (set_waitch (Some c) newRc)
            | None =>
                a <- make_counters (shl (shl 1 pb) slotsPerCacheLineBits) ;;
                let newRc := {| pbits := pb; counters := a; offset := 0;
                                waitch := None |} in
                pool_Put (set_offset (int64 (offset newRc + 1)) newRc) ;;;
                c <- make_chan ;; ret (set_waitch (Some c) newRc)
            end) w0 = Ret r w' -> pbits r = pb) as Hpool.
  { intros w0 E. rewrite bind_eq in E.
    apply bind_res_Ret in E as (o & w1 & _ & E).
    destruct o as [pr|]; [|by eapply fresh_pbits].
    destruct (Z.eqb_spec (pbits pr) pb) as [Epb|_]; [|by eapply fresh_pbits].
    rewrite bind_eq in E. apply bind_res_Ret in E as (? & w2 & _ & E).
    apply bind_res_Ret in E as (c & w3 & _ & E). by injection E as <- _. }
  destruct reuse as [r0|]; [|apply Hpool].
  destruct (Z.eqb_spec (pbits r0) pb) as [Epb|_]; [|apply Hpool].
  rewrite bind_eq. intros E. apply bind_res_Ret in E as (? & w1 & _ & E).
  by injection E as <- _.
Qed.

(** X3. clear() returns, having set every slot the instance names to 0
    (the aggregation slot included) and changed no other slot and no
    channel. *)
Theorem clear_zeroes_own_slots r w :
  rc_ok r -> arr_ok w r ->
  exists w',
    clear r w = Ret tt w'
    /\ (forall p, slot w' (counters r) (idxForP r p) = Some 0)
    /\ (forall a k, ~ (a = counters r /\ own_slot r k) -> slot w' a k = slot w a k)
    /\ chans w' = chans w.
Proof.
  intros Hr Ha. destruct (clear_spec r w Hr Ha) as (w' & E & _ & Hc & Hq & Hfr).
  exists w'. done.
Qed.

(** X4. idxForP masks the shard id into range: whatever id it is given,
    negative or beyond the shard count, the index it returns is that of
    the id reduced modulo the shard count, lies inside the array of a live
    instance and sits at the instance's offset within its cache line. *)
Theorem idxForP_stays_in_range r w p :
  rc_ok r -> arr_ok w r ->
  idxForP r p = idxForP r (p mod 2 ^ pbits r)
  /\ 0 <= idxForP r p < 2 ^ pbits r * 2 ^ slotsPerCacheLineBits
  /\ idxForP r p mod 2 ^ slotsPerCacheLineBits = offset r
  /\ is_Some (slot w (counters r) (idxForP r p)).
Proof.
  intros Hr Ha. split.
  { rewrite !idxForP_ok by done. rewrite Z.mod_mod; [done|].
    destruct Hr as (_ & Hp & _). pose proof (pow2_bounds _ Hp). lia. }
  split; [by apply idxForP_bounds|]. split; [by apply idxForP_mod|].
  by apply own_slot_is_Some.
Qed.

End Further.

Lemma roundNearestPowerOf2_least_power_witness :
  roundNearestPowerOf2 5 = 2 ^ Z.log2_up 5 /\ 5 <= roundNearestPowerOf2 5.
Proof.
  destruct (roundNearestPowerOf2_least_power 5 ltac:(lia)) as (A & B & _).
  split; [exact A|exact B].
Defined.

Lemma allocateRefCount_pbits_witness :
  pbits {| pbits := 8; counters := 0; offset := 0; waitch := Some 0%nat |}
  = uint (roundNearestPowerOf2 (int64 (@gomaxprocs stub + 1))).
Proof.
  apply (@allocateRefCount_pbits stub None emptyWorld _
           (world_of (@allocateRefCount stub None emptyWorld))).
  apply ret_value. vm_compute. reflexivity.
Defined.

Lemma clear_zeroes_own_slots_witness :
  exists w', @clear stub sampleRc sampleWorld = Ret tt w'
             /\ slot w' 0%nat 17 = Some 0.
Proof.
  destruct (@clear_zeroes_own_slots stub sampleRc sampleWorld
              sampleRc_ok sampleWorld_arr_ok) as (w' & E & Hz & _).
  exists w'. split; [exact E|]. exact (Hz 1).
Defined.

Lemma idxForP_stays_in_range_witness :
  @idxForP stub sampleRc 9 = @idxForP stub sampleRc (9 mod 2 ^ 2)
  /\ is_Some (slot sampleWorld 0%nat (@idxForP stub sampleRc 9)).
Proof.
  destruct (@idxForP_stays_in_range stub sampleRc sampleWorld 9
              sampleRc_ok sampleWorld_arr_ok) as (A & _ & _ & B).
  split; [exact A|exact B].
Defined.

Section WriteCycle.

Context {P : Platform}.

Lemma Lock_free lk w m :
  mutexes w !! lk = Some m -> once m = true -> wmu m = false ->
  Lock lk w
  = Ret {| nonzero := true;
           startIdx := byte (rem (int32 (Z.shiftr (state m) 1 + 1)) 2);
           incrs := 0; l := Some lk |}
        (with_mutexes (<[lk := set_wmu true m]>) w).
Proof.
  intros Hm Ho Hw. unfold Lock, once_Do.
  rewrite bind_eq, bind_eq, (load_mutex_eq lk w m Hm). cbn [bind_res].
  rewrite Ho. cbn [ret bind_res]. rewrite bind_eq. unfold wmu_Lock.
  rewrite Hm, Hw. cbn [bind_res].
  rewrite bind_eq, (atomic_LoadState_eq lk _ _ (lookup_updated lk w m _ Hm)).
  reflexivity.
Qed.

Lemma Next_step2_eq lk t w m :
  nonzero t = true -> incrs t = 2 -> l t = Some lk ->
  mutexes w !! lk = Some m -> wmu m = true ->
  Next t w = Ret (false, incr t) (with_mutexes (<[lk := set_wmu false m]>) w).
Proof.
  intros Hn Hi Hl Hm Hw. unfold Next. rewrite Hn, Hi, Hl.
  change (negb true) with false. change (2 >=? 3) with false.
  change (2 =? 0) with false. change (2 =? 2) with true. cbv iota.
  rewrite bind_eq. unfold wmu_Unlock. rewrite Hm, Hw. reflexivity.
Qed.

Lemma leftRight_flipped st :
  0 <= st <= 3 -> leftRight (3 - st) = 1 - leftRight st.
Proof.
  intros H. assert (st = 0 \/ st = 1 \/ st = 2 \/ st = 3) as [->|[->|[->| ->]]] by lia;
    reflexivity.
Qed.

(** X5. A write with no reader registered and the gate free runs without
    blocking: Lock() returns, Next() returns true, true and false.  The
    state word ends with both bits flipped, so new readers are sent to the
    copy the writer wrote first; the gate is free again, both refCounts are
    quiet again and the invariant holds: the next write can do the same. *)
Theorem uncontended_write_cycle lk w m r0 r1 :
  inv lk w -> mutexes w !! lk = Some m -> once m = true -> wmu m = false ->
  refCounts m = (Some r0, Some r1) -> apart r0 r1 -> quiet w r0 -> quiet w r1 ->
  exists t w0 w2 w3 m3,
    Lock lk w = Ret t w0
    /\ startIdx t = 1 - leftRight (state m)
    /\ Next t w0 = Ret (true, incr t) w0
    /\ Next (incr t) w0 = Ret (true, incr (incr t)) w2
    /\ Next (incr (incr t)) w2 = Ret (false, incr (incr (incr t))) w3
    /\ mutexes w3 !! lk = Some m3
    /\ state m3 = 3 - state m /\ leftRight (state m3) = startIdx t
    /\ wmu m3 = false /\ once m3 = true /\ refCounts m3 = (Some r0, Some r1)
    /\ quiet w3 r0 /\ quiet w3 r1 /\ inv lk w3.
Proof.
  intros Hinv Hm Ho Hw HE Hap Hq0 Hq1.
  pose proof Hinv as (Hpf & Hpool & m' & Hm' & Hok).
  assert (m' = m) as -> by congruence.
  destruct (Hok Ho) as (Hst & q0 & q1 & HE' & Hl0 & Hl1).
  assert (q0 = r0 /\ q1 = r1) as [-> ->] by (split; congruence).
  set (t := {| nonzero := true;
               startIdx := byte (rem (int32 (Z.shiftr (state m) 1 + 1)) 2);
               incrs := 0; l := Some lk |}).
  set (w0 := with_mutexes (<[lk := set_wmu true m]>) w).
  assert (mutexes w0 !! lk = Some (set_wmu true m)) as Hm0
    by (by eapply lookup_updated).
  assert (held lk w0) as Hh0.
  { split.
    - eapply inv_update; [done|done|]. intros _. split; [done|]. by exists r0, r1.
    - by exists (set_wmu true m). }
  destruct (Next_step1_quiet lk (incr t) w0 (set_wmu true m) r0 r1)
    as (w2 & E2 & Hh2 & (m2 & Hm2 & HE2 & Est2) & Hq02 & Hq12); try done.
  pose proof (held_wmu lk w2 m2 Hh2 Hm2) as Hw2.
  destruct (ready_mutex lk w2 (held_ready lk w2 Hh2))
    as (m2' & a0 & a1 & Hm2' & Ho2 & Hst2 & HEa & Hl02 & Hl12).
  assert (m2' = m2) as -> by congruence.
  assert (a0 = r0 /\ a1 = r1) as [-> ->] by (split; congruence).
  exists t, w0, w2, (with_mutexes (<[lk := set_wmu false m2]>) w2), (set_wmu false m2).
  split; [by apply Lock_free|].
  split; [by apply startIdx_opposite|].
  split; [by apply Next_step0|]. split; [exact E2|].
  split; [by apply (Next_step2_eq lk (incr (incr t)) w2 m2)|].
  split; [by eapply lookup_updated|].
  split; [exact Est2|]. split.
  { change (state (set_wmu false m2)) with (state m2). rewrite Est2.
    change (state (set_wmu true m)) with (state m).
    rewrite leftRight_flipped by done. symmetry. by apply startIdx_opposite. }
  split; [done|]. split; [done|]. split; [exact HE2|].
  split; [exact Hq02|]. split; [exact Hq12|].
  destruct Hh2 as [Hi2 _]. eapply inv_update; [done|done|].
  intros _. split; [done|]. exists r0, r1. split; [exact HE2|]. done.
Qed.

End WriteCycle.

Lemma readyWorld_quiet r :
  r = readyRc0 \/ r = readyRc1 -> @quiet stub readyWorld r.
Proof.
  intros Hr p.
  assert (@rc_ok stub r) as Hok by (destruct Hr as [-> | ->]; unfold rc_ok; simpl; lia).
  pose proof (@idxForP_bounds stub r p Hok) as Hb.
  assert (counters r = 0%nat /\ pbits r = 8) as [-> Hp] by (by destruct Hr as [-> | ->]).
  rewrite Hp in Hb. change (2 ^ 8 * 2 ^ @slotsPerCacheLineBits stub) with 4096 in Hb.
  unfold slot. destruct (Z.ltb_spec (@idxForP stub r p) 0); [lia|].
  change (arrays readyWorld !! 0%nat) with (Some (replicate (Z.to_nat 4096) 0)).
  apply lookup_replicate_2. lia.
Qed.

Lemma readyWorld_live r :
  r = readyRc0 \/ r = readyRc1 -> @live_rc stub readyWorld r.
Proof.
  intros Hr. split; [destruct Hr as [-> | ->]; unfold rc_ok; simpl; lia|]. split.
  { exists (Z.to_nat 4096). split.
    - destruct Hr as [-> | ->];
        change (Some (length (replicate (Z.to_nat 4096) 0)) = Some (Z.to_nat 4096));
        by rewrite length_replicate.
    - destruct Hr as [-> | ->]; simpl; lia. }
  split; [by destruct Hr as [-> | ->]|].
  destruct Hr as [-> | ->]; eexists; (split; [reflexivity|]); simpl; eauto.
Qed.

Lemma readyWorld_inv : @inv stub 0%nat readyWorld.
Proof.
  split; [apply stub_platform_ok|]. split.
  - unfold pool_ok. simpl. constructor; [|constructor]. intros _. split.
    + unfold rc_ok. simpl. lia.
    + exists (Z.to_nat 4096). split; [|simpl; lia].
      change (Some (length (replicate (Z.to_nat 4096) 0)) = Some (Z.to_nat 4096)).
      by rewrite length_replicate.
  - exists readyMutex. split; [done|]. intros _. split; [simpl; lia|].
    exists readyRc0, readyRc1. split; [done|].
    split; apply readyWorld_live; auto.
Qed.

Lemma readyWorld_mutex : mutexes readyWorld !! 0%nat = Some readyMutex.
Proof. reflexivity. Qed.

Lemma readyRcs_apart : apart readyRc0 readyRc1.
Proof. right. discriminate. Qed.

Lemma uncontended_write_cycle_witness :
  exists t w0 w2 w3,
    @Lock stub 0%nat readyWorld = Ret t w0
    /\ @Next stub (incr t) w0 = Ret (true, incr (incr t)) w2
    /\ @Next stub (incr (incr t)) w2 = Ret (false, incr (incr (incr t))) w3.
Proof.
  pose proof (@uncontended_write_cycle stub 0%nat readyWorld readyMutex readyRc0 readyRc1
              readyWorld_inv readyWorld_mutex eq_refl eq_refl eq_refl
              readyRcs_apart
              (readyWorld_quiet _ (or_introl eq_refl))
              (readyWorld_quiet _ (or_intror eq_refl))) as H.
  destruct H as (t & w0 & w2 & w3 & m3 & A & _ & _ & B & C & _).
  exists t, w0, w2, w3. split; [exact A|]. split; [exact B|exact C].
Defined.

Section Handshake.

Context {P : Platform}.





(** X7. A writer that calls Lock() while another holds the gate parks on
    the gate without changing anything; when it is woken it takes the gate
    and computes its start index from the state word as it is then. *)
Theorem Lock_waits_for_the_gate lk w m :
  mutexes w !! lk = Some m -> once m = true -> wmu m = true ->
  exists k,
    Lock lk w = Park (OnMutex lk) w k
    /\ forall w' m',
         mutexes w' !! lk = Some m' ->
         k w' = Ret {| nonzero := true;
                       startIdx := byte (rem (int32 (Z.shiftr (state m') 1 + 1)) 2);
                       incrs := 0; l := Some lk |}
                    (with_mutexes (<[lk := set_wmu true m']>) w').
Proof.
  intros Hm Ho Hw. unfold Lock, once_Do.
  rewrite bind_eq, bind_eq, (load_mutex_eq lk w m Hm). cbn [bind_res].
  rewrite Ho. cbn [ret bind_res]. rewrite bind_eq. unfold wmu_Lock.
  rewrite Hm, Hw. cbn [bind_res]. eexists. split; [reflexivity|].
  intros w' m' Hm'. cbn beta. rewrite (update_mutex_eq lk _ w' m' Hm').
  cbn [bind_res].
  by rewrite bind_eq, (atomic_LoadState_eq lk _ _ (lookup_updated lk w' m' _ Hm')).
Qed.

(** X8. once.Do(init) initialises the mutex the first time and is a no-op
    from then on: after it the invariant of an initialised mutex holds, and
    running it again returns in the same world. *)
Theorem init_runs_once lk w :
  inv lk w ->
  exists w',
    once_Do lk (init lk) w = Ret tt w' /\ ready lk w'
    /\ once_Do lk (init lk) w' = Ret tt w'.
Proof.
  intros Hinv. destruct (once_init lk w Hinv) as (w' & E & Hr).
  exists w'. split; [done|]. split; [done|].
  destruct Hr as (_ & m & Hm & Ho).
  unfold once_Do. rewrite bind_eq, (load_mutex_eq lk w' m Hm). cbn [bind_res].
  by rewrite Ho.
Qed.

End Handshake.




Lemma Lock_waits_for_the_gate_witness :
  exists k,
    @Lock stub 0%nat (with_mutexes (fun _ => [set_wmu true readyMutex]) readyWorld)
    = Park (OnMutex 0%nat)
           (with_mutexes (fun _ => [set_wmu true readyMutex]) readyWorld) k.
Proof.
  destruct (@Lock_waits_for_the_gate stub 0%nat
              (with_mutexes (fun _ => [set_wmu true readyMutex]) readyWorld)
              (set_wmu true readyMutex) eq_refl eq_refl eq_refl) as (k & E & _).
  exists k. exact E.
Defined.

Lemma init_runs_once_witness :
  exists w', once_Do 0%nat (@init stub 0%nat) freshWorld = Ret tt w'
             /\ @ready stub 0%nat w'.
Proof.
  destruct (@init_runs_once stub 0%nat freshWorld inv_freshWorld) as (w' & E & Hr & _).
  exists w'. split; [exact E|exact Hr].
Defined.

Section Pool.

Context {P : Platform}.


Lemma allocate_empty_pool_eq w :
  pool w = [] ->
  0 <= shl (shl 1 platform_pbits) slotsPerCacheLineBits ->
  allocateRefCount None w
  = Ret {| pbits := platform_pbits; counters := length (arrays w); offset := 0;
           waitch := Some (length (chans w)) |}
        {| arrays := arrays w
                     ++ [replicate (Z.to_nat (shl (shl 1 platform_pbits)
                                                  slotsPerCacheLineBits)) 0];
           chans := chans w ++ [0]; mutexes := mutexes w;
           pool := [{| pbits := platform_pbits; counters := length (arrays w);
                       offset := 1; waitch := None |}];
           trace := trace w |}.
Proof.
  intros Hpool Hn. unfold allocateRefCount. cbv zeta. fold platform_pbits.
  rewrite bind_eq. unfold pool_Get. rewrite Hpool. cbn [bind_res].
  rewrite bind_eq. unfold make_counters.
  destruct (Z.ltb_spec (shl (shl 1 platform_pbits) slotsPerCacheLineBits) 0); [lia|].
  cbn [bind_res]. unfold pool_Put, make_chan, ret, bind, with_pool, with_chans,
    with_arrays, set_waitch, set_offset. simpl. by rewrite Hpool.
Qed.


(** X10. From an empty pool allocateRefCount(nil) builds an array of
    (1 << pbits) << slotsPerCacheLineBits zeros, returns the instance at
    offset 0 of it with a channel of its own, every slot of the instance 0,
    and leaves the entry for offset 1 of the same array in the pool. *)
Theorem empty_pool_allocates_fresh_array w :
  platform_ok -> pool w = [] ->
  exists r w',
    allocateRefCount None w = Ret r w'
    /\ pbits r = platform_pbits /\ counters r = length (arrays w) /\ offset r = 0
    /\ waitch r = Some (length (chans w))
    /\ arrays w'
       = arrays w ++ [replicate (Z.to_nat (2 ^ platform_pbits * 2 ^ slotsPerCacheLineBits)) 0]
    /\ pool w' = [set_waitch None (set_offset 1 r)]
    /\ quiet w' r.
Proof.
  intros Hpf Hpool. pose proof (shl_shl_pbits Hpf) as En. pose proof Hpf as [Hb Hp].
  pose proof (pow2_bounds _ Hp). assert (1 <= 2 ^ slotsPerCacheLineBits <= 2 ^ 31)
    by (apply pow2_bounds; lia).
  eexists _, _. split; [apply allocate_empty_pool_eq; [done|nia]|].
  split; [done|]. split; [done|]. split; [done|]. split; [done|].
  split; [by rewrite En|]. split; [done|].
  intros p. set (r := {| pbits := platform_pbits; counters := length (arrays w);
                         offset := 0; waitch := Some (length (chans w)) |}).
  assert (rc_ok r) as Hr by (unfold rc_ok; simpl; lia).
  pose proof (idxForP_bounds r p Hr) as Hi. simpl in Hi.
  unfold slot. destruct (Z.ltb_spec (idxForP r p) 0); [lia|]. simpl.
  rewrite lookup_app_r by done. rewrite Nat.sub_diag. simpl.
  apply lookup_replicate_2. rewrite En. lia.
Qed.

(** X11. With gomaxprocs() from 32 up, pbits (the rounded power of two,
    64 or more) is a shift count that gives 0: the array allocateRefCount
    builds from an empty pool has no slot, and acquire() on the instance
    panics with an index out of range. *)
Theorem many_processors_leave_no_counters w :
  32 <= gomaxprocs < 2 ^ 32 -> 0 <= slotsPerCacheLineBits -> pool w = [] ->
  exists r w',
    allocateRefCount None w = Ret r w'
    /\ 64 <= pbits r
    /\ arrays w' !! counters r = Some []
    /\ acquire r w' = Panic indexOutOfRange w'.
Proof.
  intros Hg Hb Hpool.
  assert (64 <= platform_pbits < 2 ^ 64) as Hpb.
  { unfold platform_pbits. rewrite int64_id by lia.
    rewrite roundNearestPowerOf2_eq by lia.
    assert (5 < Z.log2_up (gomaxprocs + 1)) as Hl.
    { apply Z.log2_up_lt_pow2; [lia|]. change (2 ^ 5) with 32. lia. }
    assert (Z.log2_up (gomaxprocs + 1) <= 32) as Hu.
    { apply Z.log2_up_le_pow2; [lia|]. lia. }
    assert (2 ^ 6 <= 2 ^ Z.log2_up (gomaxprocs + 1)) by (apply Z.pow_le_mono_r; lia).
    assert (2 ^ Z.log2_up (gomaxprocs + 1) <= 2 ^ 32) by (apply Z.pow_le_mono_r; lia).
    unfold uint. rewrite Z.mod_small; lia. }
  assert (shl (shl 1 platform_pbits) slotsPerCacheLineBits = 0) as En.
  { unfold shl at 2. destruct (Z.leb_spec 64 platform_pbits); [|lia].
    unfold shl. destruct (64 <=? slotsPerCacheLineBits); [done|].
    by rewrite Z.shiftl_0_l. }
  eexists _, _. split; [apply allocate_empty_pool_eq; [done|lia]|].
  split; [simpl; lia|]. split.
  { simpl. rewrite lookup_app_r by done. rewrite Nat.sub_diag, En. done. }
  unfold acquire. rewrite bind_eq. unfold atomic_AddInt32.
  assert (forall i, slot {|
      arrays := arrays w ++ [replicate (Z.to_nat (shl (shl 1 platform_pbits)
                                                    slotsPerCacheLineBits)) 0];
      chans := chans w ++ [0]; mutexes := mutexes w;
      pool := [{| pbits := platform_pbits; counters := length (arrays w);
                  offset := 1; waitch := None |}];
      trace := trace w |} (length (arrays w)) i = None) as Hs.
  { intros i. unfold slot. destruct (i <? 0); [done|]. simpl.
    rewrite lookup_app_r by done. rewrite Nat.sub_diag, En. done. }
  simpl. by rewrite Hs.
Qed.

End Pool.

Section Reader.

Context {P : Platform}.

(** X12. A reader's round trip on an initialised mutex: RLock() returns a
    token that both Idx() and RUnlock() accept; Idx() gives the leftRight
    bit of the state word; after RUnlock() every counters array, channel
    and mutex is as before RLock(), so a later writer does not wait for
    this reader. *)
Theorem reader_round_trip lk w m r v :
  mutexes w !! lk = Some m -> once m = true ->
  refCounts_at m (versionIndex (state m)) = Some r ->
  let h := idxForP r (int64 (getp + 1)) in
  slot w (counters r) h = Some v -> 0 <= v < MaxInt32 - 1 -> h < 2 ^ 15 ->
  is_Some (slot w (counters r) (idxForP r 0)) ->
  exists t w1 w2,
    RLock lk w = Ret t w1
    /\ rc t = Some r /\ tok t = h
    /\ RLockToken_Idx t w1 = Ret (leftRight (state m)) w1
    /\ RUnlock t w1 = Ret tt w2
    /\ arrays w2 = arrays w /\ chans w2 = chans w /\ mutexes w2 = mutexes w.
Proof.
  intros Hm Ho Hr h Hv Hv0 Hfit [g0 Hg0]. unfold MaxInt32 in Hv0.
  pose proof (slot_nonneg _ _ _ _ Hv) as Hh0.
  set (a := counters r) in *.
  set (w1 := log (EvAdd a h 1) (set_slot a h (int32 (v + 1)) w)).
  assert (int32 (v + 1) = v + 1) as E1 by (apply int32_id; lia).
  assert (acquire r w = Ret h w1) as Eacq.
  { rewrite (acquire_eq r w v Hv). fold a h w1. rewrite E1.
    destruct (Z.eqb_spec (v + 1) MaxInt32) as [E|_]; [unfold MaxInt32 in E; lia|done]. }
  assert (mutexes w1 !! lk = Some m) as Hm1 by exact Hm.
  assert (int16 h = h) as E16 by (apply int16_fits; lia).
  set (t := {| idx := byte (Z.land (Z.shiftr (state m) 1) 1); tok := h;
               rc := Some r |}).
  assert (RLock lk w = Ret t w1) as Elock.
  { rewrite (RLock_eq lk w m r Hm Ho Hr), Eacq. cbn [bind_res].
    rewrite E16, Z.eqb_refl. cbn [negb].
    by rewrite bind_eq, (atomic_LoadState_eq lk w1 m Hm1). }
  assert (byte (Z.land (Z.shiftr (state m) 1) 1) = leftRight (state m)) as Eidx.
  { unfold leftRight, byte.
    assert (Z.land (Z.shiftr (state m) 1) 1 = Z.shiftr (state m) 1 mod 2) as ->
      by (apply (Z.land_ones _ 1); lia).
    pose proof (Z.mod_pos_bound (Z.shiftr (state m) 1) 2). apply Z.mod_small. lia. }
  assert (slot w1 a h = Some (v + 1)) as Hh1.
  { unfold w1. rewrite slot_log, E1. apply slot_set_slot_eq. by rewrite Hv. }
  set (w2 := log (EvAdd a h (-1)) (set_slot a h (int32 (v + 1 - 1)) w1)).
  assert (is_Some (slot w2 a (idxForP r 0))) as [g Hg].
  { unfold w2. rewrite slot_log. destruct (decide (idxForP r 0 = h)) as [->|Hne].
    - rewrite slot_set_slot_eq; [done|by rewrite Hh1].
    - rewrite slot_set_slot_ne; [|done|by intros [_ ?]].
      unfold w1. rewrite slot_log, slot_set_slot_ne; [|done|by intros [_ ?]].
      by rewrite Hg0. }
  assert (int32 (v + 1 - 1) = v) as Eback.
  { replace (v + 1 - 1) with v by lia. apply int32_id. lia. }
  exists t, w1, w2. split; [exact Elock|]. split; [done|]. split; [done|].
  split.
  { unfold RLockToken_Idx. cbn [rc tok idx t].
    destruct (Z.eqb_spec h (-1)) as [E|_]; [lia|]. unfold ret. by rewrite Eidx. }
  split.
  { unfold RUnlock. cbn [rc tok t].
    destruct (Z.eqb_spec h (-1)) as [E|_]; [lia|].
    rewrite bind_eq, (release_eq r h w1 (v + 1) g Hh1 Hg). fold a. fold w2.
    rewrite Eback. destruct (Z.leb_spec 0 v) as [_|?]; [done|lia]. }
  split.
  { unfold w2. rewrite Eback. unfold w1. rewrite E1.
    apply (set_slot_set_slot_id a h v (v + 1) w Hv). }
  split; reflexivity.
Qed.

End Reader.


Lemma empty_pool_allocates_fresh_array_witness :
  exists r w',
    @allocateRefCount stub None emptyWorld = Ret r w'
    /\ offset r = 0 /\ pool w' = [set_waitch None (set_offset 1 r)].
Proof.
  destruct (@empty_pool_allocates_fresh_array stub emptyWorld stub_platform_ok eq_refl)
    as (r & w' & E & _ & _ & Ho & _ & _ & Hp & _).
  exists r, w'. split; [exact E|]. split; [exact Ho|exact Hp].
Defined.

Lemma many_processors_leave_no_counters_witness :
  exists r w',
    @allocateRefCount manyPlatform None emptyWorld = Ret r w'
    /\ @acquire manyPlatform r w' = Panic indexOutOfRange w'.
Proof.
  destruct (@many_processors_leave_no_counters manyPlatform emptyWorld
              ltac:(simpl; lia) ltac:(simpl; lia) eq_refl)
    as (r & w' & E & _ & _ & Hp).
  exists r, w'. split; [exact E|exact Hp].
Defined.

Lemma readyWorld_slot16 : slot readyWorld (counters readyRc0) 16 = Some 0.
Proof. vm_compute. reflexivity. Qed.

Lemma readyWorld_slot0 : is_Some (slot readyWorld (counters readyRc0) 0).
Proof. exists 0. vm_compute. reflexivity. Qed.

Lemma reader_round_trip_witness :
  exists t w1 w2,
    @RLock stub 0%nat readyWorld = Ret t w1
    /\ @RUnlock stub t w1 = Ret tt w2
    /\ arrays w2 = arrays readyWorld.
Proof.
  pose proof (@reader_round_trip stub 0%nat readyWorld readyMutex readyRc0 0
                readyWorld_mutex eq_refl eq_refl readyWorld_slot16) as H.
  destruct H as (t & w1 & w2 & A & _ & _ & _ & B & C & _).
  { unfold MaxInt32. lia. }
  { change (@idxForP stub readyRc0 (int64 (@getp stub + 1))) with 16. lia. }
  { exact readyWorld_slot0. }
  exists t, w1, w2. split; [exact A|]. split; [exact B|exact C].
Defined.
